(** * super_fun_lines: the line extractor and the offset renumbering script

    A shallow embedding of [Austin_cs_tagless/numbering_script.py] and
    [Chris_Arias_cs_tagless/tori_2_chris.py].

    Text is a list of characters.  A character is a code point below 256
    ([ascii]); on that range Python's [\d] is [0-9] and Python's [\s],
    [str.strip] and [str.split] agree on the whitespace set
    [U+0009..U+000D, U+001C..U+0020, U+0085, U+00A0].

    The scripts are written with [re]; the patterns are kept as syntax
    trees and run by a backtracking matcher with Python's priorities
    (leftmost match, greedy and lazy quantifiers, alternatives tried in
    order, look-around, must-advance after an empty match). *)

From Stdlib Require Import Ascii String NArith Lia DecimalPos DecimalN.
From stdpp Require Import base tactics option list sorting gmap.

Local Open Scope N_scope.
Local Open Scope list_scope.

(** ** Text *)

Abbreviation text := (list ascii).

Definition L (s : string) : text := list_ascii_of_string s.

Definition nl : ascii := "010"%char.
Definition cr : ascii := "013"%char.
Definition sp : ascii := " "%char.

Definition code (c : ascii) : N := N_of_ascii c.

Definition chr_eqb (a b : ascii) : bool := Ascii.eqb a b.

(** [\d] *)
Definition is_digit (c : ascii) : bool :=
  (48 <=? code c) && (code c <=? 57).

(** [\s], and the characters removed by [str.strip()] / [str.split()] *)
Definition is_space (c : ascii) : bool :=
  let n := code c in
  ((9 <=? n) && (n <=? 13)) || ((28 <=? n) && (n <=? 32))
  || (n =? 133) || (n =? 160).

(** [[A-Z]] *)
Definition is_upper (c : ascii) : bool :=
  (65 <=? code c) && (code c <=? 90).

(** [[a-z]] *)
Definition is_lower (c : ascii) : bool :=
  (97 <=? code c) && (code c <=? 122).

(** [[A-Za-z\s]] *)
Definition is_role_char (c : ascii) : bool :=
  is_upper c || is_lower c || is_space c.

Definition is_chr (a : ascii) : ascii -> bool := chr_eqb a.
Definition not_nl (c : ascii) : bool := negb (chr_eqb nl c).
(** [[^\d\n]] *)
Definition not_digit_nl (c : ascii) : bool := negb (is_digit c) && not_nl c.
(** [.] under [re.DOTALL] *)
Definition any_chr (_ : ascii) : bool := true.

(** ** [str] methods used by the scripts *)

Fixpoint text_eqb (a b : text) : bool :=
  match a, b with
  | [], [] => true
  | x :: a', y :: b' => chr_eqb x y && text_eqb a' b'
  | _, _ => false
  end.

(** [s.startswith(p)] *)
Fixpoint startswith (p s : text) : bool :=
  match p, s with
  | [], _ => true
  | x :: p', y :: s' => chr_eqb x y && startswith p' s'
  | _ :: _, [] => false
  end.

(** [s.lstrip()], [s.rstrip()], [s.strip()] *)
Fixpoint lstrip (s : text) : text :=
  match s with
  | c :: s' => if is_space c then lstrip s' else s
  | [] => []
  end.

Definition rstrip (s : text) : text := rev (lstrip (rev s)).

Definition strip (s : text) : text := rstrip (lstrip s).

(** [s.split()]: the maximal runs of non-whitespace characters.
    [cur] is the run being read, reversed. *)
Fixpoint split_ws_go (cur : text) (s : text) : list text :=
  match s with
  | [] => match cur with [] => [] | _ => [rev cur] end
  | c :: s' =>
      if is_space c
      then match cur with
           | [] => split_ws_go [] s'
           | _ => rev cur :: split_ws_go [] s'
           end
      else split_ws_go (c :: cur) s'
  end.

Definition split_ws (s : text) : list text := split_ws_go [] s.

(** [sep.join(parts)] *)
Fixpoint join (sep : text) (parts : list text) : text :=
  match parts with
  | [] => []
  | [p] => p
  | p :: ps => p ++ sep ++ join sep ps
  end.

(** [s.split(c)] for a one-character separator: always at least one piece. *)
Fixpoint split_chr_go (c : ascii) (cur : text) (s : text) : list text :=
  match s with
  | [] => [rev cur]
  | x :: s' =>
      if chr_eqb c x
      then rev cur :: split_chr_go c [] s'
      else split_chr_go c (x :: cur) s'
  end.

Definition split_chr (c : ascii) (s : text) : list text := split_chr_go c [] s.

(** [s.find(sub)]: index of the first occurrence, [None] for Python's -1. *)
Fixpoint find (sub s : text) : option nat :=
  if startswith sub s then Some 0%nat
  else match s with
       | [] => None
       | _ :: s' => option_map S (find sub s')
       end.

(** [s.replace(old, new)] for a non-empty [old] (both call sites):
    occurrences are replaced left to right without overlap; [skip] counts
    the characters of the current occurrence still to be dropped. *)
Fixpoint replace_go (old new : text) (skip : nat) (s : text) : text :=
  match s with
  | [] => []
  | c :: s' =>
      match skip with
      | S n => replace_go old new n s'
      | O =>
          if startswith old s
          then new ++ replace_go old new (Nat.pred (length old)) s'
          else c :: replace_go old new O s'
      end
  end.

Definition replace (old new s : text) : text := replace_go old new O s.

(** [int(digits)] on a string matched by [\d+] *)
Definition digit_val (c : ascii) : N := code c - 48.

Definition int_of (ds : text) : N :=
  fold_left (fun acc c => 10 * acc + digit_val c) ds 0.

(** [str(n)] for a non-negative integer *)
Fixpoint uint_chars (d : Decimal.uint) : text :=
  match d with
  | Decimal.Nil => []
  | Decimal.D0 d => "0"%char :: uint_chars d
  | Decimal.D1 d => "1"%char :: uint_chars d
  | Decimal.D2 d => "2"%char :: uint_chars d
  | Decimal.D3 d => "3"%char :: uint_chars d
  | Decimal.D4 d => "4"%char :: uint_chars d
  | Decimal.D5 d => "5"%char :: uint_chars d
  | Decimal.D6 d => "6"%char :: uint_chars d
  | Decimal.D7 d => "7"%char :: uint_chars d
  | Decimal.D8 d => "8"%char :: uint_chars d
  | Decimal.D9 d => "9"%char :: uint_chars d
  end.

Definition str_of (n : N) : text := uint_chars (N.to_uint n).

(** ** Regular expressions

    The fragment of [re] syntax the two scripts use.  Quantifiers are
    only ever applied to a single character class, except for one
    optional group. *)

Inductive regex : Type :=
| Lit (s : text)                       (* literal text *)
| Cls (p : ascii -> bool)              (* one character of a class *)
| Cat (r1 r2 : regex)                  (* r1 r2 *)
| Alt (r1 r2 : regex)                  (* r1|r2 *)
| Rep (greedy : bool) (p : ascii -> bool) (lo : nat) (hi : option nat)
                                       (* p{lo,hi} and p{lo,hi}? *)
| Opt (r : regex)                      (* (?:r)? *)
| Grp (n : nat) (r : regex)            (* capturing group number n *)
| Bol (multiline : bool)               (* ^ *)
| Eol (multiline : bool)               (* $ *)
| EndZ                                 (* \Z *)
| Ahead (r : regex)                    (* (?=r) *)
| NotBehind (p : ascii -> bool).       (* (?<!c) for one character *)

Definition Seq (rs : list regex) : regex := foldr Cat (Lit []) rs.
Definition Star (p : ascii -> bool) : regex := Rep true p 0 None.
Definition Plus (p : ascii -> bool) : regex := Rep true p 1 None.
Definition AtLeast (n : nat) (p : ascii -> bool) : regex := Rep true p n None.
Definition LazyStar (p : ascii -> bool) : regex := Rep false p 0 None.

(** A position in the subject: the text before it (nearest character
    first), the text after it, and the groups captured so far. *)
Record mstate : Type := MState {
  before : text;
  after : text;
  caps : list (nat * text)
}.

Definition orelse {A} (x y : option A) : option A :=
  match x with Some _ => x | None => y end.

Definition hi_allows (hi : option nat) : bool :=
  match hi with Some O => false | _ => true end.

(** A quantified class: the greedy form tries one more character before
    trying to stop, the lazy form the other way round. *)
Fixpoint rep {A} (greedy : bool) (p : ascii -> bool) (lo : nat) (hi : option nat)
    (bef aft : text) (k : text -> text -> option A) {struct aft} : option A :=
  let stop := match lo with O => k bef aft | S _ => None end in
  let more :=
    match aft with
    | c :: aft' =>
        if p c && hi_allows hi
        then rep greedy p (Nat.pred lo) (option_map Nat.pred hi) (c :: bef) aft' k
        else None
    | [] => None
    end in
  if greedy then orelse more stop else orelse stop more.

Definition at_bol (multiline : bool) (bef : text) : bool :=
  match bef with
  | [] => true
  | c :: _ => multiline && chr_eqb nl c
  end.

(** Without [re.MULTILINE], [$] matches at the end and before a final newline. *)
Definition at_eol (multiline : bool) (aft : text) : bool :=
  match aft with
  | [] => true
  | c :: aft' => chr_eqb nl c && (multiline || match aft' with [] => true | _ => false end)
  end.

Definition behind (p : ascii -> bool) (bef : text) : bool :=
  match bef with
  | [] => false
  | c :: _ => p c
  end.

Fixpoint drop_prefix (p s : text) : option text :=
  match p, s with
  | [], _ => Some s
  | x :: p', y :: s' => if chr_eqb x y then drop_prefix p' s' else None
  | _ :: _, [] => None
  end.

(** The matcher, in continuation-passing style: [k] is the rest of the
    pattern, and a [None] from it makes the current node try its next
    alternative. *)
Fixpoint rmatch (r : regex) (st : mstate) (k : mstate -> option mstate)
    : option mstate :=
  match r with
  | Lit s =>
      match drop_prefix s (after st) with
      | Some aft' => k (MState (rev s ++ before st) aft' (caps st))
      | None => None
      end
  | Cls p =>
      match after st with
      | c :: aft' => if p c then k (MState (c :: before st) aft' (caps st)) else None
      | [] => None
      end
  | Cat r1 r2 => rmatch r1 st (fun st' => rmatch r2 st' k)
  | Alt r1 r2 => orelse (rmatch r1 st k) (rmatch r2 st k)
  | Rep greedy p lo hi =>
      rep greedy p lo hi (before st) (after st)
          (fun bef aft => k (MState bef aft (caps st)))
  | Opt r1 => orelse (rmatch r1 st k) (k st)
  | Grp n r1 =>
      rmatch r1 st (fun st' =>
        let len := (length (before st') - length (before st))%nat in
        k (MState (before st') (after st') ((n, take len (after st)) :: caps st')))
  | Bol ml => if at_bol ml (before st) then k st else None
  | Eol ml => if at_eol ml (after st) then k st else None
  | EndZ => match after st with [] => k st | _ => None end
  | Ahead r1 =>
      match rmatch r1 st Some with
      | Some _ => k st
      | None => None
      end
  | NotBehind p => if behind p (before st) then None else k st
  end.

(** One match found by a scan: the matched text and its groups. *)
Record hit : Type := Hit { whole : text; groups : list (nat * text) }.

(** [m.group(n)] ([None] when the group did not take part). *)
Fixpoint assoc (n : nat) (l : list (nat * text)) : option text :=
  match l with
  | [] => None
  | (m, v) :: l' => if Nat.eqb n m then Some v else assoc n l'
  end.

Definition group (n : nat) (h : hit) : text := default [] (assoc n (groups h)).

(** An attempt at one position.  With [must_advance] an empty match is
    refused, so that the matcher backtracks into a longer one. *)
Definition match_at (r : regex) (must_advance : bool) (bef aft : text) : option hit :=
  let fin st' :=
    if must_advance && Nat.eqb (length (before st')) (length bef)
    then None else Some st' in
  match rmatch r (MState bef aft []) fin with
  | Some st' => Some (Hit (take (length (before st') - length bef)%nat aft) (caps st'))
  | None => None
  end.

(** [re.match(r, s)] *)
Definition re_match (r : regex) (s : text) : option hit := match_at r false [] s.

(** The left-to-right scan shared by [re.sub], [re.finditer] and
    [re.search]: every character of the subject is either kept or covered
    by a match.  [skip] counts the characters of the last match still to
    be passed over.  After an empty match the same position is tried once
    more with must-advance, as [_sre] does. *)
Inductive token : Type :=
| Keep (c : ascii)
| Found (h : hit).

Fixpoint scan (r : regex) (skip : nat) (bef aft : text) : list token :=
  let next (n : nat) :=
    match aft with
    | c :: aft' => scan r n (c :: bef) aft'
    | [] => []
    end in
  let keep :=
    match aft with
    | c :: aft' => Keep c :: scan r O (c :: bef) aft'
    | [] => []
    end in
  match skip with
  | S n => next n
  | O =>
      match match_at r false bef aft with
      | None => keep
      | Some h =>
          match length (whole h) with
          | S n => Found h :: next n
          | O =>
              Found h ::
              match match_at r true bef aft with
              | Some h' => Found h' :: next (Nat.pred (length (whole h')))
              | None => keep
              end
          end
      end
  end.

Definition hits (ts : list token) : list hit :=
  omap (fun t => match t with Found h => Some h | Keep _ => None end) ts.

(** [re.finditer(r, s)] *)
Definition finditer (r : regex) (s : text) : list hit := hits (scan r O [] s).

(** [re.search(r, s)] *)
Definition search (r : regex) (s : text) : option hit := head (finditer r s).

(** [re.sub(r, repl, s)] with a function [repl]; a replacement string
    without backslashes is the constant function. *)
Definition render (repl : hit -> text) (t : token) : text :=
  match t with
  | Keep c => [c]
  | Found h => repl h
  end.

Definition sub (r : regex) (repl : hit -> text) (s : text) : text :=
  concat (map (render repl) (scan r O [] s)).

Definition sub_str (r : regex) (repl : text) (s : text) : text :=
  sub r (fun _ => repl) s.

(** ** numbering_script.py: [clean_text] *)

Module Austin.

(** [Character\s*\d+:\s*] *)
Definition re_character : regex :=
  Seq [Lit (L "Character"); Star is_space; Plus is_digit; Lit (L ":"); Star is_space].

(** [[A-Z][A-Za-z\s]+:\s*[A-Z]?\d+:\s*] *)
Definition re_role_code : regex :=
  Seq [Cls is_upper; Plus is_role_char; Lit (L ":"); Star is_space;
       Rep true is_upper 0 (Some 1%nat); Plus is_digit; Lit (L ":"); Star is_space].

(** [^[A-Z][A-Za-z\s]+:\s*] *)
Definition re_role_prefix : regex :=
  Seq [Bol false; Cls is_upper; Plus is_role_char; Lit (L ":"); Star is_space].

(** [\s*={5,}\s*] and [\s*-{5,}\s*] *)
Definition re_rule (c : ascii) : regex :=
  Seq [Star is_space; AtLeast 5 (is_chr c); Star is_space].

(** [\s+] *)
Definition re_spaces : regex := Plus is_space.

Definition markers : list text :=
  [L "ITEMS "; L "ITEM "; L "You are B;"; L "You are A;";
   L "You are Character"; L "You are playing a customer service agent"].

(** One round of the marker loop: [idx = text.find(marker)], then
    [text = text[:idx]] when the marker was found. *)
Definition truncate_at (t marker : text) : text :=
  match find marker t with
  | Some idx => take idx t
  | None => t
  end.

(** Rules 1 to 4: labels and truncation. *)
Definition strip_labels (t : text) : text :=
  let t := sub_str re_character [] t in
  let t := sub_str re_role_code [] t in
  let t := sub_str re_role_prefix [] t in
  fold_left truncate_at markers t.

(** Rules 5 and 6: section rules and whitespace. *)
Definition normalize (t : text) : text :=
  let t := sub_str (re_rule "="%char) [sp] t in
  let t := sub_str (re_rule "-"%char) [sp] t in
  let t := sub_str re_spaces [sp] t in
  strip t.

Definition clean_text (t : text) : text := normalize (strip_labels t).

(** *** The patterns of [process_files] *)

(** The look-ahead alternatives that end a monologue body. *)
Definition la_dashes : regex := Lit (nl :: L "---").
Definition la_numbered : regex := Seq [Lit [nl; nl]; Plus is_digit; Cls is_space].
Definition la_item : regex :=
  Seq [Lit [nl]; AtLeast 10 (is_chr "="%char); Lit (nl :: L "ITEM")].
Definition la_items : regex :=
  Seq [Plus (is_chr nl); AtLeast 10 (is_chr "="%char); Lit (nl :: L "ITEM")].

(** [---\s*MONOLOGUE[^\n]*---\s*\n(?:\s*[^\d\n][^\n]*\n)?\s*(\d+)\s+SCENARIO:[^\n]*\n=+\n(.*?)(?=\n---|\n\n\d+\s|\Z)]
    under [re.DOTALL] *)
Definition monologue_pattern1 : regex :=
  Seq [Lit (L "---"); Star is_space; Lit (L "MONOLOGUE"); Star not_nl;
       Lit (L "---"); Star is_space; Lit [nl];
       Opt (Seq [Star is_space; Cls not_digit_nl; Star not_nl; Lit [nl]]);
       Star is_space; Grp 1 (Plus is_digit); Plus is_space;
       Lit (L "SCENARIO:"); Star not_nl; Lit [nl];
       Plus (is_chr "="%char); Lit [nl];
       Grp 2 (LazyStar any_chr);
       Ahead (Alt la_dashes (Alt la_numbered EndZ))].

(** [={10,}\nITEM\s+(\d+)\s*-\s*MONOLOGUE[^\n]*\nSource:[^\n]*\n={10,}\n.*?\d+\s+SCENARIO:[^\n]*\n=+\n(.*?)(?=\n+={10,}\nITEM|\n---|\Z)]
    under [re.DOTALL] *)
Definition monologue_pattern2 : regex :=
  Seq [AtLeast 10 (is_chr "="%char); Lit (nl :: L "ITEM"); Plus is_space;
       Grp 1 (Plus is_digit); Star is_space; Lit (L "-"); Star is_space;
       Lit (L "MONOLOGUE"); Star not_nl; Lit (nl :: L "Source:"); Star not_nl;
       Lit [nl]; AtLeast 10 (is_chr "="%char); Lit [nl];
       LazyStar any_chr; Plus is_digit; Plus is_space;
       Lit (L "SCENARIO:"); Star not_nl; Lit [nl];
       Plus (is_chr "="%char); Lit [nl];
       Grp 2 (LazyStar any_chr);
       Ahead (Alt la_items (Alt la_dashes EndZ))].

(** [(?<!\n)(\d+)\s+SCENARIO:[^\n]*\n=+\n(.*?)(?=\n---|\n\n\d+\s|\n={10,}\nITEM|\Z)]
    under [re.DOTALL] *)
Definition scenario_pattern : regex :=
  Seq [NotBehind (is_chr nl); Grp 1 (Plus is_digit); Plus is_space;
       Lit (L "SCENARIO:"); Star not_nl; Lit [nl];
       Plus (is_chr "="%char); Lit [nl];
       Grp 2 (LazyStar any_chr);
       Ahead (Alt la_dashes (Alt la_numbered (Alt la_item EndZ)))].

(** [^\s*<body>[^\n]*$] under [re.MULTILINE]: a whole line that starts,
    after optional whitespace, like [body]. *)
Definition re_line_of (body : list regex) : regex :=
  Seq ([Bol true; Star is_space] ++ body ++ [Star not_nl; Eol true]).

(** [---[^\n]*---] *)
Definition re_dash_header : regex := Seq [Lit (L "---"); Star not_nl; Lit (L "---")].
(** [^\s*=+\s*$] under [re.MULTILINE] *)
Definition re_border : regex :=
  Seq [Bol true; Star is_space; Plus (is_chr "="%char); Star is_space; Eol true].
(** [^\s*\d+\s+SCENARIO:[^\n]*$] *)
Definition re_scenario_line : regex :=
  re_line_of [Plus is_digit; Plus is_space; Lit (L "SCENARIO:")].
(** [^\s*Script:[^\n]*$] *)
Definition re_script_line : regex := re_line_of [Lit (L "Script:")].
(** [^\s*Character\s*\d+:[^\n]*$] *)
Definition re_character_line : regex :=
  re_line_of [Lit (L "Character"); Star is_space; Plus is_digit; Lit (L ":")].
(** [^\s*ITEM\s+\d+[^\n]*$] *)
Definition re_item_line : regex :=
  re_line_of [Lit (L "ITEM"); Plus is_space; Plus is_digit].
(** [^\s*ITEMS\s+\d+-\d+[^\n]*$] *)
Definition re_items_line : regex :=
  re_line_of [Lit (L "ITEMS"); Plus is_space; Plus is_digit; Lit (L "-"); Plus is_digit].
(** [^\s*Source:[^\n]*$] *)
Definition re_source_line : regex := re_line_of [Lit (L "Source:")].
(** [^\s*This must be read[^\n]*$] *)
Definition re_must_read_line : regex := re_line_of [Lit (L "This must be read")].
(** [^\s*You are playing[^\n]*$] *)
Definition re_playing_line : regex := re_line_of [Lit (L "You are playing")].
(** [^\s*You are [A-Z];[^\n]*$] *)
Definition re_you_are_line : regex :=
  re_line_of [Lit (L "You are "); Cls is_upper; Lit (L ";")].
(** [^\s*You are Character[^\n]*$] *)
Definition re_you_character_line : regex := re_line_of [Lit (L "You are Character")].

(** [^(\d+)\s+(REST)$] where REST is [.*]; no flags, so [.] stops at a
    newline and [$] also matches before a final newline *)
Definition re_numbered : regex :=
  Seq [Bol false; Grp 1 (Plus is_digit); Plus is_space; Grp 2 (Star not_nl); Eol false].
(** [^\d+\s+] *)
Definition re_numbered_start : regex := Seq [Bol false; Plus is_digit; Plus is_space].

Definition BREAK : text := L "###BREAK###".

(** *** [process_files] *)

Definition entry : Type := N * text.

Definition nonempty (t : text) : bool :=
  match t with [] => false | _ => true end.

(** [' '.join(body.strip().split())] *)
Definition collapse (body : text) : text := join [sp] (split_ws (strip body)).

(** [line_num in [e[0] for e in all_entries]] *)
Definition number_in (line_num : N) (all_entries : list entry) : bool :=
  existsb (N.eqb line_num) (map fst all_entries).

(** The loops over [re.finditer] for patterns 1 and 2. *)
Definition extract_monologues (pat : regex) (content : text)
    (all_entries : list entry) : list entry :=
  fold_left
    (fun acc m => acc ++ [(int_of (group 1 m), collapse (group 2 m))])
    (finditer pat content) all_entries.

(** One round of the fallback loop. *)
Definition fallback_step (acc : list entry) (m : hit) : list entry :=
  let line_num := int_of (group 1 m) in
  if number_in line_num acc then acc
  else acc ++ [(line_num, collapse (group 2 m))].

(** The fallback loop over the standalone [NUMBER SCENARIO:] matches. *)
Definition extract_fallback (content : text) (all_entries : list entry) : list entry :=
  fold_left fallback_step (finditer scenario_pattern content) all_entries.

(** The removal of monologue spans and of header and metadata lines. *)
Definition strip_metadata (content : text) : text :=
  let c := sub_str monologue_pattern1 [nl] content in
  let c := sub_str monologue_pattern2 [nl] c in
  let c := sub_str scenario_pattern [nl] c in
  let c := sub_str re_dash_header [] c in
  let c := sub_str re_border [] c in
  let c := sub_str re_scenario_line [] c in
  let c := sub_str re_script_line [] c in
  let c := sub_str re_character_line BREAK c in
  let c := sub_str re_item_line BREAK c in
  let c := sub_str re_items_line BREAK c in
  let c := sub_str re_source_line [] c in
  let c := sub_str re_must_read_line [] c in
  let c := sub_str re_playing_line BREAK c in
  let c := sub_str re_you_are_line BREAK c in
  sub_str re_you_character_line BREAK c.

(** The condition that stops a continuation without consuming the line. *)
Definition is_stop_line (next_line next_stripped : text) : bool :=
  bool_decide (is_Some (re_match re_numbered_start next_line))
  || startswith (L "---") next_line
  || startswith (L "===") next_stripped
  || startswith (L "ITEM ") next_stripped
  || startswith (L "ITEMS ") next_stripped
  || startswith (L "Source:") next_stripped
  || startswith (L "Script:") next_stripped
  || startswith (L "Character ") next_stripped
  || startswith (L "This must be read") next_stripped
  || startswith (L "You are") next_stripped.

(** The inner [while]: gathers continuation lines; returns the parts and
    by how much [i] moved. *)
Fixpoint gather (lines : list text) (text_parts : list text) : list text * nat :=
  match lines with
  | [] => (text_parts, O)
  | next_line :: rest =>
      let next_stripped := strip next_line in
      if text_eqb next_stripped BREAK then (text_parts, 1%nat)
      else if negb (nonempty next_stripped) then (text_parts, 1%nat)
      else if is_stop_line next_line next_stripped then (text_parts, O)
      else
        let '(parts, n) := gather rest (text_parts ++ [next_stripped]) in
        (parts, S n)
  end.

(** The outer [while] over [lines]; [skip] is the number of lines the
    inner loop has already consumed. *)
Fixpoint numbered_lines (skip : nat) (lines : list text)
    (all_entries : list entry) : list entry :=
  match lines with
  | [] => all_entries
  | line :: rest =>
      match skip with
      | S n => numbered_lines n rest all_entries
      | O =>
          match re_match re_numbered line with
          | Some num_match =>
              let line_num := int_of (group 1 num_match) in
              let '(text_parts, n) := gather rest [group 2 num_match] in
              let full_text := join [sp] text_parts in
              numbered_lines n rest
                (if nonempty (strip full_text)
                 then all_entries ++ [(line_num, full_text)]
                 else all_entries)
          | None => numbered_lines O rest all_entries
          end
      end
  end.

(** The body of the loop over the input files, for one file's content. *)
Definition process_content (all_entries : list entry) (content : text) : list entry :=
  let content := replace [cr] [nl] (replace [cr; nl] [nl] content) in
  let all_entries := extract_monologues monologue_pattern1 content all_entries in
  let all_entries := extract_monologues monologue_pattern2 content all_entries in
  let all_entries := extract_fallback content all_entries in
  numbered_lines O (split_chr nl (strip_metadata content)) all_entries.

(** [all_entries] after the loop over the files; [contents] are the
    contents of [input_files], in that (sorted) order. *)
Definition collect (contents : list text) : list entry :=
  fold_left process_content contents [].

(** [list.sort(key=...)] is stable; so is insertion from the right,
    which puts an element before the first one whose key is not smaller. *)
Fixpoint insert_by {A} (key : A -> N) (x : A) (l : list A) : list A :=
  match l with
  | [] => [x]
  | y :: l' => if key x <=? key y then x :: l else y :: insert_by key x l'
  end.

Definition sort_by {A} (key : A -> N) (l : list A) : list A :=
  foldr (insert_by key) [] l.

(** The deduplication loop; the state is [(seen, unique_entries)]. *)
Definition dedup_step (st : gset N * list entry) (e : entry) : gset N * list entry :=
  let '(seen, unique_entries) := st in
  let '(num, t) := e in
  if decide (num ∈ seen) then st
  else ({[num]} ∪ seen, unique_entries ++ [(num, t)]).

Definition dedup (all_entries : list entry) : list entry :=
  snd (fold_left dedup_step all_entries (∅, [])).

Definition unique_entries (contents : list text) : list entry :=
  dedup (sort_by fst (collect contents)).

(** [f"{num}  {cleaned}"] *)
Definition format_line (num : N) (cleaned : text) : text :=
  str_of num ++ L "  " ++ cleaned.

Definition output_step (output_lines : list text) (e : entry) : list text :=
  let '(num, t) := e in
  let cleaned := clean_text t in
  if nonempty cleaned then output_lines ++ [format_line num cleaned]
  else output_lines.

Definition output_lines (contents : list text) : list text :=
  fold_left output_step (unique_entries contents) [].

(** What [process_files] writes to [output_file]. *)
Definition process_files (contents : list text) : text :=
  join [nl] (output_lines contents).

End Austin.

(** ** tori_2_chris.py *)

Module Chris.

Definition BASE_DIR : text :=
  L "/workspace/super_fun_lines/fun_lines/Chris_Arias_cs_tagless".
Definition OFFSET : N := 612.
Definition START_FILE : N := 8.

(** [^(\d+)(\s)] under [re.MULTILINE] *)
Definition re_line_number : regex :=
  Seq [Bol true; Grp 1 (Plus is_digit); Grp 2 (Cls is_space)].

(** The replacement function [add_offset(match)]. *)
Definition add_offset (m : hit) : text :=
  let num := int_of (group 1 m) in
  str_of (num + OFFSET) ++ group 2 m.

(** [add_offset_to_numbers]: from the content read to the content written. *)
Definition add_offset_to_numbers (content : text) : text :=
  sub re_line_number add_offset content.

(** [actor_assignments(\d+)\.txt] *)
Definition re_file_number : regex :=
  Seq [Lit (L "actor_assignments"); Grp 1 (Plus is_digit); Lit (L ".txt")].

(** The test of [main] on one path: the file number is found and is at
    least [START_FILE]. *)
Definition selected (filepath : text) : bool :=
  match search re_file_number filepath with
  | Some m => START_FILE <=? int_of (group 1 m)
  | None => false
  end.

(** One round of the loop of [main] on a file and its content. *)
Definition main_step (file : text * text) : text * text :=
  let '(filepath, content) := file in
  if selected filepath then (filepath, add_offset_to_numbers content)
  else file.

(** [main] on the files found by the glob, as pairs of path and
    content; the order of the rounds does not matter to the result. *)
Definition main (files : list (text * text)) : list (text * text) :=
  map main_step files.

End Chris.

(** ** Vocabulary of the statements *)

(** The longest prefix of [s] made of characters of the class [p], and
    what follows it. *)
Fixpoint run (p : ascii -> bool) (s : text) : text :=
  match s with
  | c :: s' => if p c then c :: run p s' else []
  | [] => []
  end.

Fixpoint after_run (p : ascii -> bool) (s : text) : text :=
  match s with
  | c :: s' => if p c then after_run p s' else s
  | [] => []
  end.

(** Every run of whitespace replaced by one space; [in_ws] says that the
    previous character was whitespace. *)
Fixpoint squeeze_go (in_ws : bool) (s : text) : text :=
  match s with
  | [] => []
  | c :: s' =>
      if is_space c
      then (if in_ws then squeeze_go true s' else sp :: squeeze_go true s')
      else c :: squeeze_go false s'
  end.

Definition squeeze (s : text) : text := squeeze_go false s.

(** No two whitespace characters in a row. *)
Fixpoint no_ws_run (s : text) : bool :=
  match s with
  | a :: s' =>
      match s' with
      | b :: _ => negb (is_space a && is_space b) && no_ws_run s'
      | [] => true
      end
  | [] => true
  end.

(** Whitespace occurs only as the space character. *)
Definition only_sp (s : text) : bool :=
  forallb (fun c => negb (is_space c) || chr_eqb sp c) s.

(** Neither the first nor the last character is whitespace. *)
Definition trimmed (s : text) : bool :=
  match s with
  | [] => true
  | c :: _ => negb (is_space c)
  end &&
  match rev s with
  | [] => true
  | c :: _ => negb (is_space c)
  end.

(** No run of five or more [c] starts anywhere in [s]. *)
Fixpoint rule_free (c : ascii) (s : text) : bool :=
  match s with
  | [] => true
  | _ :: s' => (length (run (is_chr c) s) <? 5)%nat && rule_free c s'
  end.

(** The lines of a written file: none for empty content, otherwise the
    pieces between newlines. *)
Definition file_lines (content : text) : list text :=
  match content with
  | [] => []
  | _ => split_chr nl content
  end.

(** The number an output line starts with. *)
Definition line_number (line : text) : N := int_of (run is_digit line).

(** The lines of a content, each with its newline when it has one
    ([str.splitlines(keepends=True)] for the newline character alone). *)
Fixpoint keepends (s : text) : list text :=
  match s with
  | [] => []
  | c :: s' =>
      if chr_eqb nl c then [c] :: keepends s'
      else match keepends s' with
           | [] => [[c]]
           | l :: ls => (c :: l) :: ls
           end
  end.

(** The first line of a content with its newline, and what follows it. *)
Fixpoint first_line (s : text) : text :=
  match s with
  | [] => []
  | c :: s' => if chr_eqb nl c then [c] else c :: first_line s'
  end.

Fixpoint rest_lines (s : text) : text :=
  match s with
  | [] => []
  | c :: s' => if chr_eqb nl c then s' else rest_lines s'
  end.

(** [s.count(c)] for a single character. *)
Fixpoint count_chr (c : ascii) (s : text) : nat :=
  match s with
  | [] => O
  | x :: s' => ((if chr_eqb c x then 1 else 0) + count_chr c s')%nat
  end.

(** What the renumbering is meant to do to one line (with its newline):
    a line that is digits, then a whitespace character, then the rest
    has the offset added to the digits; any other line is kept. *)
Definition renumber_line (offset : N) (line : text) : text :=
  match run is_digit line, after_run is_digit line with
  | (_ :: _) as ds, c :: rest =>
      if is_space c then str_of (int_of ds + offset) ++ c :: rest else line
  | _, _ => line
  end.

(** A line that begins with digits followed by a whitespace character. *)
Definition numbered_line (line : text) : bool :=
  match run is_digit line, after_run is_digit line with
  | _ :: _, c :: _ => is_space c
  | _, _ => false
  end.

(** The deduplication loop as a function of the entries still to come. *)
Fixpoint dedup_from (seen : gset N) (l : list Austin.entry) : list Austin.entry :=
  match l with
  | [] => []
  | (num, t) :: l' =>
      if decide (num ∈ seen) then dedup_from seen l'
      else (num, t) :: dedup_from ({[num]} ∪ seen) l'
  end.

(** The output line of an entry, when it has one. *)
Definition output_of (e : Austin.entry) : option text :=
  let cleaned := Austin.clean_text (snd e) in
  if Austin.nonempty cleaned then Some (Austin.format_line (fst e) cleaned) else None.

(** What a substitution that writes a space can make of a text: a
    character is kept where the pattern [r] did not match, a space is
    written and some characters are passed over, or a space is written for
    an empty match and the character after it is kept. *)
Inductive spaced (r : regex) : text -> text -> Prop :=
| spaced_nil : spaced r [] []
| spaced_keep x aft out bef :
    match_at r false bef (x :: aft) = None ->
    spaced r aft out -> spaced r (x :: aft) (x :: out)
| spaced_space k aft out :
    spaced r (drop k aft) out -> spaced r aft (sp :: out)
| spaced_empty x aft out bef h :
    match_at r false bef (x :: aft) = Some h -> length (whole h) = O ->
    spaced r aft out -> spaced r (x :: aft) (sp :: x :: out).

(** The text written by the renumbering for a content read from
    position [bef]. *)
Definition written (bef aft : text) : text :=
  concat (map (render Chris.add_offset) (scan Chris.re_line_number O bef aft)).

Abbreviation renumbered s :=
  (concat (map (renumber_line Chris.OFFSET) (keepends s))).

(** The inputs of the examples. *)
Definition example_monologue : text :=
  L "--- MONOLOGUE ---" ++ [nl] ++ L "7 SCENARIO: intro" ++ [nl]
  ++ L "=====" ++ [nl] ++ L "Hello there." ++ [nl] ++ L "I am fine." ++ [nl].

Definition example_role_line : text :=
  L "Narrator: 12 Welcome to the show [apologetically]".

Definition example_numbered_role_line : text :=
  L "12 Narrator: Welcome to the show [apologetically]".

Definition example_duplicates : text :=
  L "3 first" ++ [nl] ++ L "3 second" ++ [nl] ++ L "2 other".

Definition example_two_labels : text := L "Narrator: Doctor: hello".

Definition example_marker : text := L "Go now. You are A; continue the scene.".

Definition example_path : text :=
  Chris.BASE_DIR ++ L "/actor_assignments8.txt".

(** A line with its newline at the end and nowhere else, and a last
    line without newline. *)
Definition complete_line (l : text) : Prop :=
  count_chr nl l = 1%nat /\ last l = Some nl.

Definition partial_line (l : text) : Prop :=
  count_chr nl l = O /\ l <> [].

(** The lines of a content: complete lines, then at most one partial line. *)
Fixpoint lines_ok (ls : list text) : Prop :=
  match ls with
  | [] => True
  | [l] => complete_line l \/ partial_line l
  | l :: ls' => complete_line l /\ lines_ok ls'
  end.

(** A word of [str.split()]: not empty and without whitespace. *)
Definition word_ok (w : text) : Prop :=
  w <> [] /\ forallb (fun c => negb (is_space c)) w = true.

Arguments Austin.clean_text : simpl never.

(** ** The matcher *)

Section Engine.

Lemma run_after_run p s : run p s ++ after_run p s = s.
Proof. induction s as [|c s IH]; simpl; [done|]. destruct (p c); simpl; congruence. Qed.

Lemma run_all p s : forallb p (run p s) = true.
Proof. induction s as [|c s IH]; simpl; [done|]. destruct (p c) eqn:E; simpl; [|done]. by rewrite E. Qed.

Lemma after_run_head p s : match after_run p s with c :: _ => p c = false | [] => True end.
Proof. induction s as [|c s IH]; simpl; [done|]. destruct (p c) eqn:E; simpl; done. Qed.

Lemma run_app_all p a b : forallb p a = true -> run p (a ++ b) = a ++ run p b.
Proof.
  induction a as [|c a IH]; simpl; [done|].
  intros [-> Ha]%andb_prop. by rewrite IH.
Qed.

Lemma after_run_app_all p a b : forallb p a = true -> after_run p (a ++ b) = after_run p b.
Proof.
  induction a as [|c a IH]; simpl; [done|].
  intros [-> Ha]%andb_prop. by rewrite IH.
Qed.

Lemma run_stop p c s : p c = false -> run p (c :: s) = [].
Proof. simpl. by intros ->. Qed.

Lemma take_run p s : take (length (run p s)) s = run p s.
Proof. induction s as [|c s IH]; simpl; [done|]. destruct (p c); simpl; congruence. Qed.

Lemma drop_run p s : drop (length (run p s)) s = after_run p s.
Proof. induction s as [|c s IH]; simpl; [done|]. destruct (p c); simpl; congruence. Qed.

Lemma orelse_some {A} (x : A) y : orelse (Some x) y = Some x.
Proof. done. Qed.

(** A greedy quantifier whose whole run is accepted by the rest of the
    pattern takes the whole run. *)
Lemma rep_greedy_max {A} p (k : text -> text -> option A) x aft :
  forall lo bef,
    (lo <= length (run p aft))%nat ->
    k (rev (run p aft) ++ bef) (after_run p aft) = Some x ->
    rep true p lo None bef aft k = Some x.
Proof.
  induction aft as [|c aft IH]; intros lo bef Hlo Hk; simpl in *.
  - assert (lo = O) as -> by lia. done.
  - destruct (p c) eqn:E; simpl in *.
    + rewrite (IH (Nat.pred lo) (c :: bef)); [done|lia|].
      by rewrite <- app_assoc in Hk.
    + assert (lo = O) as -> by lia. done.
Qed.

(** A greedy quantifier fails when the rest of the pattern refuses every
    length it can give back. *)
Lemma rep_greedy_none {A} p (k : text -> text -> option A) aft :
  forall lo bef,
    (forall i, (lo <= i <= length (run p aft))%nat ->
               k (rev (take i aft) ++ bef) (drop i aft) = None) ->
    rep true p lo None bef aft k = None.
Proof.
  induction aft as [|c aft IH]; intros lo bef Hk; simpl in *.
  - destruct lo; [|done]. apply (Hk O). lia.
  - assert (match lo with O => k bef (c :: aft) | S _ => None end = None) as Hstop.
    { destruct lo; [|done]. apply (Hk O). lia. }
    destruct (p c) eqn:E; simpl in *; [|done].
    rewrite IH; [done|].
    intros i Hi. specialize (Hk (S i)). simpl in Hk.
    rewrite <- app_assoc in Hk. apply Hk. lia.
Qed.

Lemma rep_short {A} p (k : text -> text -> option A) aft :
  forall lo bef, (length (run p aft) < lo)%nat -> rep true p lo None bef aft k = None.
Proof. intros. apply rep_greedy_none. intros; lia. Qed.

(** Unfolding the scan. *)
Lemma scan_skip r n bef c aft : scan r (S n) bef (c :: aft) = scan r n (c :: bef) aft.
Proof. done. Qed.

Lemma scan_keep r bef c aft :
  match_at r false bef (c :: aft) = None ->
  scan r O bef (c :: aft) = Keep c :: scan r O (c :: bef) aft.
Proof. intros H. simpl. by rewrite H. Qed.

Lemma scan_found r bef c aft h n :
  match_at r false bef (c :: aft) = Some h ->
  length (whole h) = S n ->
  scan r O bef (c :: aft) = Found h :: scan r n (c :: bef) aft.
Proof. intros H Hn. simpl. by rewrite H, Hn. Qed.

End Engine.

(** ** Decimal numerals *)

Section Numerals.

Lemma uint_chars_digits d : forallb is_digit (uint_chars d) = true.
Proof. induction d; simpl; try done; by rewrite IHd. Qed.

Lemma int_of_acc d acc :
  fold_left (fun a c => 10 * a + digit_val c) (uint_chars d) (N.pos acc)
  = N.pos (Pos.of_uint_acc d acc).
Proof.
  revert acc. induction d; intros acc; simpl; try done;
    (etrans; [|apply IHd]); f_equal; unfold digit_val; simpl; lia.
Qed.

Lemma int_of_uint d : int_of (uint_chars d) = N.of_uint d.
Proof.
  unfold int_of, N.of_uint. induction d; simpl; try done;
    (etrans; [|apply int_of_acc]); f_equal.
Qed.

(** [int(str(n)) == n] *)
Lemma int_of_str_of n : int_of (str_of n) = n.
Proof. unfold str_of. rewrite int_of_uint. apply DecimalN.Unsigned.of_to. Qed.

Lemma str_of_digits n : forallb is_digit (str_of n) = true.
Proof. apply uint_chars_digits. Qed.

Lemma str_of_nonempty n : str_of n <> [].
Proof.
  unfold str_of. destruct n as [|p]; simpl; [done|].
  pose proof (DecimalPos.Unsigned.to_uint_nonnil p) as H.
  destruct (Pos.to_uint p); simpl; done.
Qed.

End Numerals.

(** ** Whitespace: [strip] and the [\s+] substitution *)

Section Whitespace.

Lemma lstrip_after_run s : lstrip s = after_run is_space s.
Proof. induction s as [|c s IH]; simpl; [done|]. by rewrite IH. Qed.

Lemma lstrip_split s :
  s = run is_space s ++ lstrip s.
Proof. by rewrite lstrip_after_run, run_after_run. Qed.

Lemma lstrip_head s :
  match lstrip s with c :: _ => is_space c = false | [] => True end.
Proof. rewrite lstrip_after_run. apply after_run_head. Qed.

Lemma forallb_rev (p : ascii -> bool) s : forallb p (rev s) = forallb p s.
Proof.
  induction s as [|c s IH]; simpl; [done|].
  rewrite forallb_app, IH. simpl. rewrite andb_true_r. apply andb_comm.
Qed.

Lemma rstrip_split s :
  s = rstrip s ++ rev (run is_space (rev s)).
Proof.
  unfold rstrip. rewrite <- rev_app_distr, <- lstrip_split. by rewrite rev_involutive.
Qed.

Lemma rstrip_last s :
  match rev (rstrip s) with c :: _ => is_space c = false | [] => True end.
Proof. unfold rstrip. rewrite rev_involutive. apply lstrip_head. Qed.

(** [strip] cuts whitespace off both ends and nothing else. *)
Lemma strip_split s :
  exists a b, s = a ++ strip s ++ b
              /\ forallb is_space a = true /\ forallb is_space b = true.
Proof.
  exists (run is_space s), (rev (run is_space (rev (lstrip s)))).
  split; [|split].
  - unfold strip. rewrite <- rstrip_split. apply lstrip_split.
  - apply run_all.
  - rewrite forallb_rev. apply run_all.
Qed.

Lemma strip_trimmed s : trimmed (strip s) = true.
Proof.
  unfold trimmed. apply andb_true_intro. split.
  - unfold strip. pose proof (rstrip_split (lstrip s)) as H.
    pose proof (lstrip_head s) as Hh.
    destruct (rstrip (lstrip s)) as [|c r] eqn:E; [done|].
    rewrite H in Hh. simpl in Hh. by rewrite Hh.
  - unfold strip. pose proof (rstrip_last (lstrip s)) as H.
    destruct (rev (rstrip (lstrip s))); [done|]. by rewrite H.
Qed.

Lemma lstrip_id s :
  match s with c :: _ => is_space c = false | [] => True end -> lstrip s = s.
Proof. destruct s as [|c s]; simpl; [done|]. by intros ->. Qed.

Lemma strip_id s : trimmed s = true -> strip s = s.
Proof.
  unfold trimmed, strip, rstrip. intros [H1 H2]%andb_prop.
  rewrite (lstrip_id s).
  - rewrite lstrip_id; [apply rev_involutive|].
    destruct (rev s); [done|]. by apply negb_true_iff.
  - destruct s; [done|]. by apply negb_true_iff.
Qed.

Lemma no_ws_run_app a b :
  no_ws_run (a ++ b) = true -> no_ws_run a = true /\ no_ws_run b = true.
Proof.
  induction a as [|x a IH]; simpl; [done|].
  destruct a as [|y a]; simpl in *.
  - destruct b; [done|]. intros [_ H]%andb_prop. done.
  - intros [H1 H2]%andb_prop. destruct (IH H2) as [Ha Hb].
    split; [|done]. by rewrite H1, Ha.
Qed.

Lemma only_sp_app a b :
  only_sp (a ++ b) = true -> only_sp a = true /\ only_sp b = true.
Proof. unfold only_sp. rewrite forallb_app. apply andb_prop. Qed.

(** The two properties survive [strip]. *)
Lemma strip_keeps (P : text -> bool) s :
  (forall a b, P (a ++ b) = true -> P a = true /\ P b = true) ->
  P s = true -> P (strip s) = true.
Proof.
  intros HP Hs. destruct (strip_split s) as (a & b & E & _).
  rewrite E in Hs. apply HP in Hs as [_ Hs]. by apply HP in Hs as [Hs _].
Qed.

(** One attempt of [\s+]: the whole run of whitespace, or nothing. *)
Lemma match_spaces_some bef c aft :
  is_space c = true ->
  match_at Austin.re_spaces false bef (c :: aft)
  = Some (Hit (c :: run is_space aft) []).
Proof.
  intros Hc. unfold match_at, Austin.re_spaces, Plus. cbn [rmatch before after caps].
  erewrite rep_greedy_max; [|simpl; rewrite Hc; simpl; lia|reflexivity].
  cbn [before caps andb]. f_equal. f_equal.
  rewrite length_app, length_rev.
  replace (length (run is_space (c :: aft)) + length bef - length bef)%nat
    with (length (run is_space (c :: aft))) by lia.
  rewrite take_run. simpl. by rewrite Hc.
Qed.

Lemma match_spaces_none bef aft :
  match aft with c :: _ => is_space c = false | [] => True end ->
  match_at Austin.re_spaces false bef aft = None.
Proof.
  intros H. unfold match_at, Austin.re_spaces, Plus. cbn [rmatch before after caps].
  rewrite rep_short; [done|].
  destruct aft as [|c aft]; simpl; [lia|]. rewrite H. simpl. lia.
Qed.

Lemma scan_spaces aft :
  forall bef,
    concat (map (render (fun _ => [sp]))
                (scan Austin.re_spaces (length (run is_space aft)) bef aft))
    = squeeze_go true aft
    /\ concat (map (render (fun _ => [sp])) (scan Austin.re_spaces O bef aft))
       = squeeze_go false aft.
Proof.
  induction aft as [|c aft IH]; intros bef.
  - split; reflexivity.
  - destruct (is_space c) eqn:Hc.
    + destruct (IH (c :: bef)) as [IH1 IH2].
      cbn [run squeeze_go]. rewrite Hc. cbn [length]. split.
      * rewrite scan_skip. apply IH1.
      * erewrite scan_found; [|by apply match_spaces_some|reflexivity].
        cbn [map concat render]. exact (f_equal (cons sp) IH1).
    + destruct (IH (c :: bef)) as [IH1 IH2].
      cbn [run squeeze_go]. rewrite Hc. cbn [length].
      rewrite scan_keep by (by apply match_spaces_none).
      cbn [map concat render]. rewrite IH2. done.
Qed.

(** [re.sub(r'\s+', ' ', t)] replaces every run of whitespace by one space. *)
Lemma sub_spaces t : sub_str Austin.re_spaces [sp] t = squeeze t.
Proof. apply scan_spaces. Qed.

Lemma squeeze_only_sp b s : only_sp (squeeze_go b s) = true.
Proof.
  revert b. induction s as [|c s IH]; intros b; simpl; [done|].
  destruct (is_space c) eqn:Hc.
  - destruct b; simpl; [apply IH|]. apply IH.
  - simpl. rewrite Hc. simpl. apply IH.
Qed.

Lemma squeeze_head_true s :
  match squeeze_go true s with c :: _ => is_space c = false | [] => True end.
Proof.
  induction s as [|c s IH]; simpl; [done|].
  destruct (is_space c) eqn:Hc; done.
Qed.

Lemma squeeze_no_ws_run b s : no_ws_run (squeeze_go b s) = true.
Proof.
  revert b. induction s as [|c s IH]; intros b; [done|].
  cbn [squeeze_go]. destruct (is_space c) eqn:Hc.
  - destruct b; [apply IH|].
    pose proof (squeeze_head_true s) as Hh. specialize (IH true).
    cbn [no_ws_run]. destruct (squeeze_go true s) as [|x r]; [done|].
    rewrite Hh, IH. by rewrite andb_false_r.
  - specialize (IH false). cbn [no_ws_run].
    destruct (squeeze_go false s) as [|x r]; [done|].
    by rewrite Hc, IH.
Qed.

(** On a text that is already squeezed, squeezing changes nothing. *)
Lemma squeeze_id s :
  only_sp s = true -> no_ws_run s = true -> squeeze_go false s = s.
Proof.
  induction s as [|c s IH]; [done|].
  intros Ho Hn. cbn [squeeze_go].
  change (only_sp (c :: s))
    with ((negb (is_space c) || chr_eqb sp c) && only_sp s) in Ho.
  apply andb_prop in Ho as [Hc Ho].
  destruct (is_space c) eqn:Hs.
  - cbn [negb orb] in Hc. unfold chr_eqb in Hc.
    apply Ascii.eqb_eq in Hc. subst c. f_equal.
    destruct s as [|x s]; [done|].
    cbn [no_ws_run] in Hn. rewrite Hs in Hn.
    apply andb_prop in Hn as [Hx Hn]. simpl in Hx. apply negb_true_iff in Hx.
    cbn [squeeze_go]. rewrite Hx.
    specialize (IH Ho Hn). cbn [squeeze_go] in IH. by rewrite Hx in IH.
  - f_equal. apply IH; [done|].
    destruct s; [done|]. cbn [no_ws_run] in Hn. by apply andb_prop in Hn as [_ Hn].
Qed.

End Whitespace.

(** ** Sorting, deduplication and the written file *)

Section Aggregation.
Import Austin.

Context {A : Type} (key : A -> N).

Lemma insert_by_perm x l : Permutation (insert_by key x l) (x :: l).
Proof.
  induction l as [|y l IH]; simpl; [done|].
  destruct (key x <=? key y); [done|]. rewrite IH. apply perm_swap.
Qed.

Lemma sort_by_perm l : Permutation (sort_by key l) l.
Proof.
  induction l as [|x l IH]; simpl; [done|].
  etrans; [apply insert_by_perm|]. by constructor.
Qed.

Lemma insert_by_sorted x l :
  StronglySorted (fun a b => key a <= key b) l ->
  StronglySorted (fun a b => key a <= key b) (insert_by key x l).
Proof.
  induction 1 as [|y l Hl IH Hy]; simpl; [repeat constructor|].
  destruct (N.leb_spec (key x) (key y)) as [Hle|Hgt].
  - constructor; [by constructor|]. constructor; [done|].
    eapply Forall_impl; [exact Hy|]. simpl. intros; lia.
  - constructor; [done|].
    rewrite insert_by_perm. constructor; [lia|done].
Qed.

Lemma sort_by_sorted l : StronglySorted (fun a b => key a <= key b) (sort_by key l).
Proof. induction l; simpl; [constructor|]. by apply insert_by_sorted. Qed.

(** Stability: the entries of one key keep their order. *)
Lemma insert_by_filter n x l :
  filter (fun e => key e = n) (insert_by key x l)
  = filter (fun e => key e = n) (x :: l).
Proof.
  induction l as [|y l IH]; simpl; [done|].
  destruct (N.leb_spec (key x) (key y)) as [Hle|Hgt]; [done|].
  rewrite (filter_cons _ y), IH, !filter_cons.
  repeat case_decide; try done. lia.
Qed.

Lemma sort_by_stable n l :
  filter (fun e => key e = n) (sort_by key l) = filter (fun e => key e = n) l.
Proof.
  induction l as [|x l IH]; simpl; [done|].
  by rewrite insert_by_filter, !filter_cons, IH.
Qed.

End Aggregation.

Section Dedup.
Import Austin.

Lemma dedup_fold l :
  forall seen uniq,
    snd (fold_left dedup_step l (seen, uniq)) = uniq ++ dedup_from seen l.
Proof.
  induction l as [|[n t] l IH]; intros seen uniq; simpl.
  - by rewrite app_nil_r.
  - case_decide; rewrite IH; [done|]. by rewrite <- app_assoc.
Qed.

Lemma dedup_spec l : dedup l = dedup_from ∅ l.
Proof. unfold dedup. by rewrite dedup_fold. Qed.

Lemma dedup_from_in l :
  forall seen e, e ∈ dedup_from seen l -> e ∈ l /\ fst e ∉ seen.
Proof.
  induction l as [|[n t] l IH]; intros seen e; simpl.
  - by intros ?%elem_of_nil.
  - case_decide as Hn.
    + intros [? ?]%IH. split; [by right|done].
    + intros [->|[? ?]%IH]%elem_of_cons; [split; [by left|done]|].
      split; [by right|]. set_solver.
Qed.

Lemma dedup_from_sorted l :
  forall seen,
    StronglySorted (fun a b : entry => fst a <= fst b) l ->
    StronglySorted (fun a b : entry => fst a < fst b) (dedup_from seen l).
Proof.
  induction l as [|[n t] l IH]; intros seen Hs; simpl; [constructor|].
  apply StronglySorted_inv in Hs as [Hl Hn].
  case_decide; [by apply IH|].
  constructor; [by apply IH|].
  apply Forall_forall. intros e [He Hne]%dedup_from_in.
  rewrite Forall_forall in Hn. specialize (Hn e He). simpl in *.
  assert (fst e <> n) by set_solver. lia.
Qed.

(** Whatever the order of the list, the loop keeps of each number its
    first entry. *)
Lemma dedup_from_filter n l :
  forall seen,
    filter (fun e : entry => fst e = n) (dedup_from seen l)
    = if decide (n ∈ seen) then []
      else take 1 (filter (fun e : entry => fst e = n) l).
Proof.
  induction l as [|[m t] l IH]; intros seen; simpl.
  - by case_decide.
  - rewrite (filter_cons _ (m, t) l). simpl.
    destruct (decide (m ∈ seen)) as [Hm|Hm].
    + rewrite IH. repeat case_decide; try done. by subst.
    + rewrite filter_cons, IH. simpl.
      repeat case_decide; subst; try done; set_solver.
Qed.

End Dedup.

Section Output.
Import Austin.

Lemma output_fold l :
  forall acc, fold_left output_step l acc = acc ++ omap output_of l.
Proof.
  induction l as [|[n t] l IH]; intros acc.
  - simpl. by rewrite app_nil_r.
  - cbn [fold_left omap list_omap]. rewrite IH. unfold output_of, output_step. cbn [fst snd].
    destruct (nonempty (clean_text t)); [|done]. by rewrite <- app_assoc.
Qed.

Lemma output_lines_spec contents :
  output_lines contents = omap output_of (unique_entries contents).
Proof. unfold output_lines. by rewrite output_fold. Qed.

(** The cleaned text is squeezed and trimmed. *)
Lemma clean_text_shape t :
  only_sp (clean_text t) = true
  /\ no_ws_run (clean_text t) = true
  /\ trimmed (clean_text t) = true.
Proof.
  unfold clean_text, normalize. rewrite sub_spaces. split; [|split].
  - apply strip_keeps; [apply only_sp_app|apply squeeze_only_sp].
  - apply strip_keeps; [apply no_ws_run_app|apply squeeze_no_ws_run].
  - apply strip_trimmed.
Qed.

Lemma only_sp_no_nl s : only_sp s = true -> nl ∉ s.
Proof.
  unfold only_sp. rewrite forallb_forall. intros H Hin.
  apply list_elem_of_In in Hin. by apply H in Hin.
Qed.

Lemma digits_no_nl s : forallb is_digit s = true -> nl ∉ s.
Proof.
  rewrite forallb_forall. intros H Hin.
  apply list_elem_of_In in Hin. by apply H in Hin.
Qed.

Lemma run_digits_format n cleaned :
  run is_digit (format_line n cleaned) = str_of n.
Proof.
  unfold format_line. rewrite run_app_all by apply str_of_digits.
  simpl. apply app_nil_r.
Qed.

Lemma line_number_format n cleaned : line_number (format_line n cleaned) = n.
Proof. unfold line_number. rewrite run_digits_format. apply int_of_str_of. Qed.

Lemma output_of_some e line :
  output_of e = Some line ->
  line = format_line (fst e) (clean_text (snd e)) /\ clean_text (snd e) <> [].
Proof.
  unfold output_of. destruct (clean_text (snd e)) eqn:E; simpl; [done|].
  by intros [= <-].
Qed.

Lemma output_line_no_nl e line : output_of e = Some line -> nl ∉ line.
Proof.
  intros [-> _]%output_of_some. unfold format_line.
  rewrite !elem_of_app. intros [H|[H|H]].
  - by apply digits_no_nl in H; [|apply str_of_digits].
  - by apply only_sp_no_nl in H.
  - by apply only_sp_no_nl in H; [|apply clean_text_shape].
Qed.

Lemma output_line_nonempty e line : output_of e = Some line -> line <> [].
Proof.
  intros [-> _]%output_of_some. unfold format_line.
  pose proof (str_of_nonempty (fst e)). by destruct (str_of (fst e)).
Qed.

(** Splitting a joined list of newline-free lines gives the lines back. *)
Lemma split_chr_go_app c l rest :
  forall cur, c ∉ l ->
    split_chr_go c cur (l ++ rest) = split_chr_go c (rev l ++ cur) rest.
Proof.
  induction l as [|x l IH]; intros cur Hc; simpl; [done|].
  unfold chr_eqb. destruct (Ascii.eqb_spec c x) as [->|Hne].
  - exfalso. apply Hc. by left.
  - rewrite IH by set_solver. by rewrite <- app_assoc.
Qed.

Lemma split_join ls :
  ls <> [] -> Forall (fun l => nl ∉ l) ls -> split_chr nl (join [nl] ls) = ls.
Proof.
  unfold split_chr. induction ls as [|l ls IH]; [done|].
  intros _ Hls. apply Forall_cons in Hls as [Hl Hls].
  destruct ls as [|l' ls].
  - simpl. rewrite <- (app_nil_r l) at 1.
    rewrite split_chr_go_app by done. simpl. by rewrite app_nil_r, rev_involutive.
  - change (join [nl] (l :: l' :: ls)) with (l ++ nl :: join [nl] (l' :: ls)).
    rewrite split_chr_go_app by done. cbn [split_chr_go].
    unfold chr_eqb at 1. rewrite Ascii.eqb_refl.
    rewrite app_nil_r, rev_involutive. f_equal. by apply IH.
Qed.

Lemma join_nonempty ls l :
  l <> [] -> join [nl] (l :: ls) <> [].
Proof. destruct l; [done|]. by destruct ls. Qed.

(** The lines of the written file are exactly [output_lines]. *)
Lemma file_lines_output contents :
  file_lines (process_files contents) = output_lines contents.
Proof.
  unfold process_files. rewrite output_lines_spec.
  assert (Forall (fun l => (nl ∉ l) /\ l <> [])
            (omap output_of (unique_entries contents))) as H.
  { apply Forall_forall. intros l (e & _ & He)%list_elem_of_omap.
    split; [by eapply output_line_no_nl|by eapply output_line_nonempty]. }
  destruct (omap output_of (unique_entries contents)) as [|l ls]; [done|].
  unfold file_lines.
  pose proof (join_nonempty ls l) as Hne.
  destruct (join [nl] (l :: ls)) eqn:E.
  - exfalso. apply Hne; [|done]. by apply Forall_cons in H as [[_ ?] _].
  - rewrite <- E. apply split_join; [done|].
    eapply Forall_impl; [exact H|]. by intros ? [? _].
Qed.

Lemma unique_entries_sorted contents :
  StronglySorted (fun a b : entry => fst a < fst b) (unique_entries contents).
Proof.
  unfold unique_entries. rewrite dedup_spec.
  apply dedup_from_sorted, sort_by_sorted.
Qed.

Lemma output_numbers_sorted l :
  StronglySorted (fun a b : entry => fst a < fst b) l ->
  StronglySorted N.lt (map line_number (omap output_of l)).
Proof.
  induction 1 as [|e l Hl IH He]; [constructor|].
  cbn [omap list_omap]. destruct (output_of e) as [line|] eqn:E; [|done].
  cbn [map]. constructor; [done|].
  apply Forall_forall. intros n (line' & -> & (e' & He' & Hl')%list_elem_of_omap)%list_elem_of_fmap.
  apply output_of_some in E as [-> _]. apply output_of_some in Hl' as [-> _].
  rewrite !line_number_format.
  rewrite Forall_forall in He. by apply He.
Qed.

End Output.

(** ** The extraction script: collection, order and format *)

Section Extraction.
Import Austin.

Lemma number_in_spec n (acc : list entry) :
  number_in n acc = true <-> n ∈ map fst acc.
Proof.
  unfold number_in. rewrite existsb_exists. split.
  - intros (x & Hx & ->%N.eqb_eq). by apply list_elem_of_In.
  - intros H. exists n. split; [by apply list_elem_of_In|apply N.eqb_refl].
Qed.

Lemma fallback_fold ms :
  forall acc, exists added,
    fold_left fallback_step ms acc = acc ++ added
    /\ NoDup (map fst added)
    /\ forall n, n ∈ map fst added -> n ∉ map fst acc.
Proof.
  induction ms as [|m ms IH]; intros acc.
  - exists []. rewrite app_nil_r. split; [done|]. split; [constructor|].
    by intros n ?%elem_of_nil.
  - cbn [fold_left]. unfold fallback_step at 2.
    destruct (number_in (int_of (group 1 m)) acc) eqn:E; [apply IH|].
    destruct (IH (acc ++ [(int_of (group 1 m), collapse (group 2 m))]))
      as (added & -> & Hnd & Hout).
    exists ((int_of (group 1 m), collapse (group 2 m)) :: added).
    split; [by rewrite <- app_assoc|]. split.
    + cbn [map fst]. constructor; [|done].
      intros Hin. apply (Hout _ Hin). rewrite map_app. set_solver.
    + intros n [->|Hin]%elem_of_cons.
      * intros Hn. apply number_in_spec in Hn. cbn [fst] in Hn. congruence.
      * intros Hn. apply (Hout _ Hin). rewrite map_app. set_solver.
Qed.

(** C3: the fallback pass over the standalone [NUMBER SCENARIO:] matches
    only appends entries; the numbers it appends are pairwise different
    and none of them was in the collection it started from. *)
Theorem fallback_adds_no_duplicate (content : text) (all_entries : list entry) :
  exists added,
    extract_fallback content all_entries = all_entries ++ added
    /\ NoDup (map fst added)
    /\ forall n, n ∈ map fst added -> n ∉ map fst all_entries.
Proof. apply fallback_fold. Qed.

Lemma sorted_lt_NoDup (l : list N) : StronglySorted N.lt l -> NoDup l.
Proof.
  induction 1 as [|x l Hl IH Hx]; constructor; [|done].
  intros Hin. rewrite Forall_forall in Hx. specialize (Hx x Hin). lia.
Qed.

(** C4: read from the first line of the written file to the last, the
    line numbers are strictly increasing, so no number occurs twice. *)
Theorem output_numbers_increasing (contents : list text) :
  StronglySorted N.lt (map line_number (file_lines (process_files contents)))
  /\ NoDup (map line_number (file_lines (process_files contents))).
Proof.
  assert (StronglySorted N.lt
            (map line_number (file_lines (process_files contents)))) as H.
  { rewrite file_lines_output, output_lines_spec.
    apply output_numbers_sorted, unique_entries_sorted. }
  split; [done|by apply sorted_lt_NoDup].
Qed.

Lemma filter_none (n : N) (l : list entry) :
  n ∉ map fst l -> filter (fun x : entry => fst x = n) l = [].
Proof.
  induction l as [|x l IH]; [done|].
  cbn [map]. intros Hn. rewrite filter_cons, decide_False by set_solver.
  apply IH. set_solver.
Qed.

(** C5: of the collected entries that share a number, deduplication
    keeps exactly one, the first in collection order. *)
Theorem first_entry_survives (contents : list text)
    (earlier : list entry) (e : entry) (later : list entry) :
  collect contents = earlier ++ e :: later ->
  fst e ∉ map fst earlier ->
  filter (fun x : entry => fst x = fst e) (unique_entries contents) = [e].
Proof.
  intros Hc Hfirst. unfold unique_entries.
  rewrite dedup_spec, dedup_from_filter, sort_by_stable, Hc.
  rewrite decide_False by set_solver.
  rewrite filter_app, filter_cons, decide_True by done.
  by rewrite filter_none.
Qed.

Lemma sorted_lt_inj (l : list entry) (a b : entry) :
  StronglySorted (fun x y : entry => fst x < fst y) l ->
  a ∈ l -> b ∈ l -> fst a = fst b -> a = b.
Proof.
  induction 1 as [|x l Hl IH Hx]; [by intros ?%elem_of_nil|].
  rewrite Forall_forall in Hx.
  intros [->|Ha]%elem_of_cons [->|Hb]%elem_of_cons Hab; try done.
  - specialize (Hx _ Hb). lia.
  - specialize (Hx _ Ha). lia.
  - by apply IH.
Qed.

(** C6: every line of the written file is a decimal number, exactly two
    spaces and a text that is not empty, has no newline, no two
    whitespace characters in a row and no whitespace at either end; an
    entry whose cleaned text is empty has no line in the file. *)
Theorem output_line_format (contents : list text) :
  (forall line, line ∈ file_lines (process_files contents) ->
     exists (num : N) (cleaned : text),
       line = str_of num ++ [sp; sp] ++ cleaned
       /\ str_of num <> [] /\ forallb is_digit (str_of num) = true
       /\ cleaned <> [] /\ (nl ∉ cleaned)
       /\ no_ws_run cleaned = true /\ trimmed cleaned = true)
  /\ (forall (num : N) (t : text),
        (num, t) ∈ unique_entries contents -> clean_text t = [] ->
        num ∉ map line_number (file_lines (process_files contents))).
Proof.
  rewrite file_lines_output, output_lines_spec. split.
  - intros line (e & _ & [-> Hne]%output_of_some)%list_elem_of_omap.
    destruct (clean_text_shape (snd e)) as (Ho & Hn & Ht).
    exists (fst e), (clean_text (snd e)).
    split; [done|]. split; [apply str_of_nonempty|].
    split; [apply str_of_digits|]. split; [done|].
    split; [by apply only_sp_no_nl|done].
  - intros num t Hin Hempty (line & -> & (e & He & Hl)%list_elem_of_omap)%list_elem_of_fmap.
    pose proof Hl as [-> _]%output_of_some. rewrite line_number_format in Hin.
    assert (e = (fst e, t)) as Heq.
    { eapply sorted_lt_inj; [apply unique_entries_sorted|done|done|done]. }
    unfold output_of in Hl. rewrite Heq in Hl. cbn [snd] in Hl.
    by rewrite Hempty in Hl.
Qed.

End Extraction.

Lemma fallback_adds_no_duplicate_witness :
  exists added,
    Austin.extract_fallback example_monologue [(7, L "Hello there. I am fine.")]
      = [(7, L "Hello there. I am fine.")] ++ added
    /\ NoDup (map fst added)
    /\ forall n, n ∈ map fst added -> n ∉ map fst [(7, L "Hello there. I am fine.")].
Proof.
  exact (fallback_adds_no_duplicate example_monologue
           [(7, L "Hello there. I am fine.")]).
Defined.

Lemma first_entry_survives_witness :
  filter (fun x : Austin.entry => fst x = 3)
         (Austin.unique_entries [example_duplicates])
  = [(3, L "first")].
Proof.
  apply (first_entry_survives [example_duplicates] []
           (3, L "first") [(3, L "second"); (2, L "other")]).
  - vm_compute. reflexivity.
  - cbn [map]. apply not_elem_of_nil.
Defined.

Lemma output_line_format_witness :
  exists (num : N) (cleaned : text),
    L "12  Welcome to the show [apologetically]" = str_of num ++ [sp; sp] ++ cleaned
    /\ str_of num <> [] /\ forallb is_digit (str_of num) = true
    /\ cleaned <> [] /\ (nl ∉ cleaned)
    /\ no_ws_run cleaned = true /\ trimmed cleaned = true.
Proof.
  apply (proj1 (output_line_format [example_numbered_role_line])).
  vm_compute. apply list_elem_of_here.
Defined.

(** ** The renumbering script *)

Section Renumber.
Import Chris.

Lemma digit_not_space c : is_digit c = true -> is_space c = false.
Proof. destruct c as [[] [] [] [] [] [] [] []]; vm_compute; congruence. Qed.

Lemma space_not_digit c : is_space c = true -> is_digit c = false.
Proof.
  intros H. destruct (is_digit c) eqn:E; [|done].
  apply digit_not_space in E. congruence.
Qed.

Lemma nl_space : is_space nl = true.
Proof. reflexivity. Qed.

Lemma run_digits_then ds c r :
  forallb is_digit ds = true -> is_digit c = false ->
  run is_digit (ds ++ c :: r) = ds /\ after_run is_digit (ds ++ c :: r) = c :: r.
Proof.
  intros Hds Hc. rewrite run_app_all, after_run_app_all by done.
  simpl. rewrite Hc. by rewrite app_nil_r.
Qed.

(** A line that begins with digits and a whitespace character, taken apart. *)
Lemma numbered_line_split s :
  numbered_line s = true ->
  exists ds c r, s = ds ++ c :: r /\ ds <> []
                 /\ forallb is_digit ds = true /\ is_space c = true.
Proof.
  unfold numbered_line. intros H.
  pose proof (run_after_run is_digit s) as E. pose proof (run_all is_digit s) as Hd.
  destruct (run is_digit s) as [|d ds]; [done|].
  destruct (after_run is_digit s) as [|c r]; [done|].
  exists (d :: ds), c, r. by rewrite E.
Qed.

Lemma numbered_line_intro ds c r :
  ds <> [] -> forallb is_digit ds = true -> is_space c = true ->
  numbered_line (ds ++ c :: r) = true.
Proof.
  intros Hne Hds Hc. unfold numbered_line.
  destruct (run_digits_then ds c r Hds (space_not_digit c Hc)) as [-> ->].
  by destruct ds.
Qed.

Lemma renumber_line_numbered offset ds c r :
  ds <> [] -> forallb is_digit ds = true -> is_space c = true ->
  renumber_line offset (ds ++ c :: r) = str_of (int_of ds + offset) ++ c :: r.
Proof.
  intros Hne Hds Hc. unfold renumber_line.
  destruct (run_digits_then ds c r Hds (space_not_digit c Hc)) as [-> ->].
  destruct ds; [done|]. by rewrite Hc.
Qed.

Lemma renumber_line_other offset s :
  numbered_line s = false -> renumber_line offset s = s.
Proof.
  unfold numbered_line, renumber_line.
  destruct (run is_digit s); [done|].
  destruct (after_run is_digit s); [done|]. by intros ->.
Qed.

(** One attempt of the pattern at a position. *)
Lemma match_number_some bef ds c r :
  at_bol true bef = true ->
  ds <> [] -> forallb is_digit ds = true -> is_space c = true ->
  match_at re_line_number false bef (ds ++ c :: r)
  = Some (Hit (ds ++ [c]) [(2%nat, [c]); (1%nat, ds)]).
Proof.
  intros Hb Hne Hds Hc.
  destruct (run_digits_then ds c r Hds (space_not_digit c Hc)) as [Hrun Hafter].
  unfold match_at, re_line_number, Seq, Plus.
  cbn [foldr rmatch before after caps]. rewrite Hb.
  erewrite rep_greedy_max; [| |rewrite Hrun, Hafter, Hc; reflexivity].
  - cbn [before caps drop_prefix rev app].
    rewrite !length_cons, !length_app, !length_rev.
    replace (S (length ds + length bef) - (length ds + length bef))%nat
      with 1%nat by lia.
    replace (length ds + length bef - length bef)%nat with (length ds) by lia.
    replace (S (length ds + length bef) - length bef)%nat
      with (length (ds ++ [c])) by (rewrite length_app; simpl; lia).
    rewrite take_app_length. rewrite (cons_middle c ds r), app_assoc.
    by rewrite take_app_length.
  - rewrite Hrun. destruct ds; [done|simpl; lia].
Qed.

Lemma drop_in_run p s i :
  (i < length (run p s))%nat -> exists c r, drop i s = c :: r /\ p c = true.
Proof.
  revert i. induction s as [|x s IH]; intros i; simpl; [lia|].
  destruct (p x) eqn:E; simpl; [|lia].
  destruct i; [by eauto|]. intros. apply IH. lia.
Qed.

Lemma match_number_none bef aft :
  at_bol true bef = false \/ numbered_line aft = false ->
  match_at re_line_number false bef aft = None.
Proof.
  intros H. unfold match_at, re_line_number, Seq, Plus.
  cbn [foldr rmatch before after caps].
  destruct (at_bol true bef); [|done].
  destruct H as [H|H]; [done|].
  rewrite rep_greedy_none; [done|].
  intros i [Hlo Hhi].
  destruct (decide (i = length (run is_digit aft))) as [->|Hne].
  - rewrite drop_run. unfold numbered_line in H.
    destruct (run is_digit aft); [simpl in Hlo; lia|].
    destruct (after_run is_digit aft); [done|]. by rewrite H.
  - destruct (drop_in_run is_digit aft i) as (c & r & -> & Hc); [lia|].
    by rewrite (digit_not_space c Hc).
Qed.


(** Passing over the characters of a match. *)
Lemma scan_skip_n r n : forall bef aft,
  (n <= length aft)%nat ->
  scan r n bef aft = scan r O (rev (take n aft) ++ bef) (drop n aft).
Proof.
  induction n as [|n IH]; intros bef aft Hn; [done|].
  destruct aft as [|c aft]; [simpl in Hn; lia|].
  rewrite scan_skip, IH by (simpl in Hn; lia).
  cbn [take drop rev]. by rewrite <- app_assoc.
Qed.

Lemma first_rest_lines s : first_line s ++ rest_lines s = s.
Proof.
  induction s as [|c s IH]; [done|]. cbn [first_line rest_lines].
  destruct (chr_eqb nl c); [done|]. simpl. by rewrite IH.
Qed.

Lemma keepends_first s :
  s <> [] -> keepends s = first_line s :: keepends (rest_lines s).
Proof.
  induction s as [|c s IH]; [done|]. intros _.
  cbn [keepends first_line rest_lines].
  destruct (chr_eqb nl c); [done|].
  destruct s as [|d s]; [done|]. by rewrite IH.
Qed.

Lemma keepends_concat s : concat (keepends s) = s.
Proof.
  induction s as [|c s IH]; [done|]. cbn [keepends].
  destruct (chr_eqb nl c); [simpl; by rewrite IH|].
  destruct (keepends s) as [|l ls]; simpl in *; by rewrite <- IH.
Qed.

Lemma digits_first_line ds s :
  forallb is_digit ds = true -> first_line (ds ++ s) = ds ++ first_line s.
Proof.
  induction ds as [|d ds IH]; [done|]. cbn [forallb app first_line].
  intros [Hd Hds]%andb_prop.
  assert (chr_eqb nl d = false) as ->.
  { destruct (chr_eqb nl d) eqn:E; [|done].
    apply Ascii.eqb_eq in E. subst d. done. }
  by rewrite IH.
Qed.

Lemma digits_rest_lines ds s :
  forallb is_digit ds = true -> rest_lines (ds ++ s) = rest_lines s.
Proof.
  induction ds as [|d ds IH]; [done|]. cbn [forallb app rest_lines].
  intros [Hd Hds]%andb_prop.
  assert (chr_eqb nl d = false) as ->.
  { destruct (chr_eqb nl d) eqn:E; [|done].
    apply Ascii.eqb_eq in E. subst d. done. }
  by rewrite IH.
Qed.

(** Whether a content begins with a number is decided by its first line. *)
Lemma first_line_not_numbered s :
  numbered_line s = false -> numbered_line (first_line s) = false.
Proof.
  intros H. destruct (numbered_line (first_line s)) eqn:E; [|done].
  apply numbered_line_split in E as (ds & c & r & E & Hne & Hds & Hc).
  rewrite <- (first_rest_lines s), E, <- app_assoc, <- app_comm_cons in H.
  by rewrite numbered_line_intro in H.
Qed.

Lemma add_offset_hit ds c :
  add_offset (Hit (ds ++ [c]) [(2%nat, [c]); (1%nat, ds)])
  = str_of (int_of ds + OFFSET) ++ [c].
Proof. done. Qed.

Lemma written_nil bef : written bef [] = [].
Proof.
  unfold written. simpl.
  destruct (match_at re_line_number false bef []) as [h|] eqn:E; [|done].
  exfalso. revert E. unfold match_at, re_line_number, Seq, Plus.
  cbn [foldr rmatch before after caps].
  destruct (at_bol true bef); [|done]. by rewrite rep_short by (simpl; lia).
Qed.

Lemma written_keep bef c aft :
  at_bol true bef = false \/ numbered_line (c :: aft) = false ->
  written bef (c :: aft) = c :: written (c :: bef) aft.
Proof.
  intros H. unfold written. by rewrite scan_keep by by apply match_number_none.
Qed.

Lemma written_number bef ds c r :
  at_bol true bef = true ->
  ds <> [] -> forallb is_digit ds = true -> is_space c = true ->
  written bef (ds ++ c :: r)
  = str_of (int_of ds + OFFSET) ++ c :: written (c :: rev ds ++ bef) r.
Proof.
  intros Hb Hne Hds Hc. unfold written.
  pose proof (match_number_some bef ds c r Hb Hne Hds Hc) as Hm.
  destruct ds as [|d ds]; [done|]. rewrite <- app_comm_cons in *.
  erewrite scan_found; [|exact Hm|]; cycle 1.
  { cbn [whole]. rewrite length_app. cbn [length].
    replace (S (length ds) + 1)%nat with (S (S (length ds))) by lia. reflexivity. }
  rewrite scan_skip_n by (rewrite length_app; simpl; lia).
  cbn [map concat render]. rewrite add_offset_hit.
  rewrite (cons_middle c ds r), app_assoc.
  replace (S (length ds)) with (length (ds ++ [c])) by (rewrite length_app; simpl; lia).
  rewrite take_app_length, drop_app_length.
  rewrite rev_app_distr. cbn [rev app].
  rewrite <- !app_assoc. reflexivity.
Qed.


Lemma bol_after c bef : at_bol true (c :: bef) = chr_eqb nl c.
Proof. done. Qed.

Lemma space_nl_cases c r :
  first_line (c :: r) ++ renumbered (rest_lines (c :: r))
  = c :: (if chr_eqb nl c then renumbered r
          else first_line r ++ renumbered (rest_lines r)).
Proof. cbn [first_line rest_lines]. by destruct (chr_eqb nl c). Qed.

(** The scan from any position: at the beginning of a line the lines
    that follow are renumbered; inside a line the rest of that line is
    copied first. *)
Lemma written_lines n : forall aft bef,
  (length aft < n)%nat ->
  written bef aft
  = if at_bol true bef then renumbered aft
    else first_line aft ++ renumbered (rest_lines aft).
Proof.
  induction n as [|n IH]; intros aft bef Hn; [lia|].
  destruct aft as [|c aft].
  { rewrite written_nil. by destruct (at_bol true bef). }
  destruct (at_bol true bef) eqn:Hb.
  - rewrite keepends_first by done. cbn [map concat].
    destruct (numbered_line (c :: aft)) eqn:Hnum.
    + apply numbered_line_split in Hnum as (ds & x & r & E & Hne & Hds & Hx).
      rewrite E, written_number by done.
      rewrite digits_first_line, digits_rest_lines by done.
      assert (length r < n)%nat as Hr.
      { apply (f_equal length) in E. rewrite length_app in E. simpl in *. lia. }
      rewrite (IH r) by done. rewrite bol_after.
      cbn [first_line rest_lines]. destruct (chr_eqb nl x) eqn:Ex.
      * rewrite renumber_line_numbered by done. by rewrite <- app_assoc.
      * rewrite renumber_line_numbered by done.
        rewrite <- !app_assoc. reflexivity.
    + rewrite written_keep by by right.
      rewrite renumber_line_other by by apply first_line_not_numbered.
      rewrite (IH aft) by (simpl in Hn; lia). rewrite bol_after.
      by rewrite space_nl_cases.
  - rewrite written_keep by by left.
    rewrite (IH aft) by (simpl in Hn; lia). rewrite bol_after.
    by rewrite space_nl_cases.
Qed.

(** The substitution, line by line. *)
Lemma add_offset_linewise content :
  add_offset_to_numbers content = renumbered content.
Proof.
  unfold add_offset_to_numbers, sub.
  exact (written_lines (S (length content)) content [] (Nat.lt_succ_diag_r _)).
Qed.


(** The file number found in a path of the glob. *)
Lemma match_file_number bef ds :
  ds <> [] -> forallb is_digit ds = true ->
  match_at re_file_number false bef (L "actor_assignments" ++ ds ++ L ".txt")
  = Some (Hit (L "actor_assignments" ++ ds ++ L ".txt") [(1%nat, ds)]).
Proof.
  intros Hne Hds.
  assert (run is_digit (ds ++ L ".txt") = ds
          /\ after_run is_digit (ds ++ L ".txt") = L ".txt") as [Hrun Hafter].
  { by apply (run_digits_then ds "."%char (L "txt")). }
  unfold match_at, re_file_number, Seq, Plus.
  cbn [foldr rmatch before after caps L list_ascii_of_string app drop_prefix].
  rewrite !Ascii.eqb_refl || unfold chr_eqb; rewrite ?Ascii.eqb_refl.
  cbn [before after caps]. cbn [L list_ascii_of_string] in Hrun, Hafter.
  erewrite rep_greedy_max; [| |rewrite Hrun, Hafter; reflexivity].
  - cbn [before caps]. f_equal. f_equal.
    + apply take_ge. rewrite !length_app, !length_rev. simpl.
      rewrite !length_app. simpl. lia.
    + f_equal. f_equal. rewrite !length_app.
      replace (_ - _)%nat with (length (rev ds)) by lia.
      by rewrite length_rev, take_app_length.
  - rewrite Hrun. destruct ds; [done|simpl; lia].
Qed.

Lemma selected_file_number ds :
  ds <> [] -> forallb is_digit ds = true ->
  selected (BASE_DIR ++ L "/actor_assignments" ++ ds ++ L ".txt")
  = (START_FILE <=? int_of ds).
Proof.
  intros Hne Hds. unfold selected, search, finditer.
  pose proof (match_file_number (rev (BASE_DIR ++ L "/")) ds Hne Hds) as Hm.
  unfold BASE_DIR.
  cbn [L list_ascii_of_string app] in *.
  repeat (rewrite scan_keep by (vm_compute; reflexivity)).
  erewrite scan_found; [|exact Hm|reflexivity].
  reflexivity.
Qed.

End Renumber.

Section Frame.
Import Chris.

Lemma count_chr_app c a b : count_chr c (a ++ b) = (count_chr c a + count_chr c b)%nat.
Proof. induction a as [|x a IH]; simpl; [done|]. rewrite IH. lia. Qed.

Lemma count_nl_digits ds : forallb is_digit ds = true -> count_chr nl ds = O.
Proof.
  induction ds as [|d ds IH]; [done|]. cbn [forallb count_chr].
  intros [Hd Hds]%andb_prop. rewrite IH by done.
  destruct (chr_eqb nl d) eqn:E; [|done].
  apply Ascii.eqb_eq in E. subst d. done.
Qed.

Lemma count_nl_renumber_line offset line :
  count_chr nl (renumber_line offset line) = count_chr nl line.
Proof.
  destruct (numbered_line line) eqn:Hnum.
  - apply numbered_line_split in Hnum as (ds & c & r & -> & Hne & Hds & Hc).
    rewrite renumber_line_numbered by done.
    rewrite !count_chr_app. f_equal.
    by rewrite !count_nl_digits by (done || apply str_of_digits).
  - by rewrite renumber_line_other.
Qed.

Lemma count_nl_renumbered offset ls :
  count_chr nl (concat (map (renumber_line offset) ls)) = count_chr nl (concat ls).
Proof.
  induction ls as [|l ls IH]; [done|]. cbn [map concat].
  by rewrite !count_chr_app, count_nl_renumber_line, IH.
Qed.

Lemma renumbered_unnumbered offset ls :
  Forall (fun l => numbered_line l = false) ls ->
  map (renumber_line offset) ls = ls.
Proof.
  induction 1 as [|l ls Hl _ IH]; [done|]. cbn [map].
  by rewrite renumber_line_other, IH.
Qed.

End Frame.

(** ** The renumbering script: statements *)

(** C9: when [main] reaches a file whose path passes the file-number test
    (for a path [BASE_DIR/actor_assignments<digits>.txt] the test is that
    the number is at least [START_FILE]), the content written is the content
    read with each of its lines renumbered: a line that begins with digits
    and a whitespace character gets 612 added to the number, keeping that
    character and the rest of the line.  The line [5 Hello world] of
    [actor_assignments8.txt] becomes [617 Hello world]. *)
Theorem selected_file_renumbered (files : list (text * text)) (i : nat)
    (path content : text) :
  files !! i = Some (path, content) ->
  Chris.selected path = true ->
  Chris.main files !! i
    = Some (path, concat (map (renumber_line Chris.OFFSET) (keepends content)))
  /\ concat (keepends content) = content
  /\ (forall ds c rest,
        ds <> [] -> forallb is_digit ds = true -> is_space c = true ->
        renumber_line Chris.OFFSET (ds ++ c :: rest)
        = str_of (int_of ds + 612) ++ c :: rest)
  /\ (forall ds,
        ds <> [] -> forallb is_digit ds = true ->
        Chris.selected (Chris.BASE_DIR ++ L "/actor_assignments" ++ ds ++ L ".txt")
        = (Chris.START_FILE <=? int_of ds))
  /\ Chris.main [(example_path, L "5 Hello world")]
     = [(example_path, L "617 Hello world")].
Proof.
  intros Hfile Hsel. split; [|split; [|split; [|split]]].
  - unfold Chris.main. rewrite list_lookup_fmap, Hfile. cbn [fmap option_fmap option_map].
    unfold Chris.main_step. by rewrite Hsel, add_offset_linewise.
  - apply keepends_concat.
  - intros. by apply renumber_line_numbered.
  - apply selected_file_number.
  - by vm_compute.
Qed.

Lemma selected_file_renumbered_witness :
  Chris.main [(example_path, L "5 Hello world")] !! O
  = Some (example_path,
          concat (map (renumber_line Chris.OFFSET) (keepends (L "5 Hello world")))).
Proof.
  apply (selected_file_renumbered [(example_path, L "5 Hello world")] O
           example_path (L "5 Hello world")).
  - reflexivity.
  - vm_compute. reflexivity.
Defined.

(** C10: the substitution changes nothing but the numbers of numbered
    lines.  The content written is the content read line by line, a line
    that does not begin with digits and a whitespace character is written
    as it is, so a content without such lines is written unchanged; a line
    of digits alone has its newline as the whitespace character and is
    renumbered; the number of newline characters is the same. *)
Theorem unnumbered_content_unchanged (content : text) :
  Chris.add_offset_to_numbers content
    = concat (map (renumber_line Chris.OFFSET) (keepends content))
  /\ (forall line, numbered_line line = false ->
                   renumber_line Chris.OFFSET line = line)
  /\ (Forall (fun line => numbered_line line = false) (keepends content) ->
      Chris.add_offset_to_numbers content = content)
  /\ (forall ds, ds <> [] -> forallb is_digit ds = true ->
        numbered_line (ds ++ [nl]) = true
        /\ Chris.add_offset_to_numbers (ds ++ [nl])
           = str_of (int_of ds + Chris.OFFSET) ++ [nl])
  /\ count_chr nl (Chris.add_offset_to_numbers content) = count_chr nl content.
Proof.
  split; [|split; [|split; [|split]]].
  - apply add_offset_linewise.
  - apply renumber_line_other.
  - intros H. by rewrite add_offset_linewise, renumbered_unnumbered, keepends_concat.
  - intros ds Hne Hds. split; [by apply numbered_line_intro|].
    unfold Chris.add_offset_to_numbers, sub.
    change (concat _) with (written [] (ds ++ [nl])).
    rewrite written_number, written_nil by done. done.
  - by rewrite add_offset_linewise, count_nl_renumbered, keepends_concat.
Qed.

Lemma unnumbered_content_unchanged_witness :
  Chris.add_offset_to_numbers (L "Hello" ++ [nl] ++ L "12" ++ [nl])
  = L "Hello" ++ [nl] ++ L "624" ++ [nl]
  /\ Chris.add_offset_to_numbers (L "Hello" ++ [nl] ++ L "12x" ++ [nl])
     = L "Hello" ++ [nl] ++ L "12x" ++ [nl].
Proof.
  split.
  - destruct (unnumbered_content_unchanged (L "Hello" ++ [nl] ++ L "12" ++ [nl]))
      as (-> & _). vm_compute. reflexivity.
  - destruct (unnumbered_content_unchanged (L "Hello" ++ [nl] ++ L "12x" ++ [nl]))
      as (_ & _ & H & _). apply H. vm_compute. repeat constructor.
Defined.

(** ** Cleaning a cleaned text *)

Section Idempotence.
Import Austin.

Variable c : ascii.
Hypothesis c_not_space : is_space c = false.

Lemma run_chr_space x s : is_space x = true -> run (is_chr c) (x :: s) = [].
Proof.
  intros Hx. apply run_stop. unfold is_chr, chr_eqb.
  destruct (Ascii.eqb c x) eqn:E; [|done].
  apply Ascii.eqb_eq in E. congruence.
Qed.

Lemma rule_free_cons x s :
  rule_free c (x :: s) = (length (run (is_chr c) (x :: s)) <? 5)%nat && rule_free c s.
Proof. done. Qed.

Lemma rule_free_tail x s : rule_free c (x :: s) = true -> rule_free c s = true.
Proof. rewrite rule_free_cons. by intros [_ H]%andb_prop. Qed.

Lemma rule_free_head s : rule_free c s = true -> (length (run (is_chr c) s) < 5)%nat.
Proof.
  destruct s as [|x s]; [simpl; lia|].
  rewrite rule_free_cons. intros [H _]%andb_prop. by apply Nat.ltb_lt in H.
Qed.

Lemma run_app_le p a b : (length (run p a) <= length (run p (a ++ b)))%nat.
Proof.
  induction a as [|x a IH]; simpl; [lia|].
  destruct (p x); simpl; lia.
Qed.

Lemma rule_free_app a b :
  rule_free c (a ++ b) = true -> rule_free c a = true /\ rule_free c b = true.
Proof.
  induction a as [|x a IH]; [done|].
  rewrite <- app_comm_cons, !rule_free_cons.
  intros [H1 H2]%andb_prop. destruct (IH H2) as [Ha Hb].
  split; [|done]. apply andb_true_intro. split; [|done].
  apply Nat.ltb_lt. apply Nat.ltb_lt in H1.
  pose proof (run_app_le (is_chr c) (x :: a) b). rewrite <- app_comm_cons in *. lia.
Qed.

Lemma rule_free_drop n s : rule_free c s = true -> rule_free c (drop n s) = true.
Proof.
  intros H. rewrite <- (take_drop n s) in H. by apply rule_free_app in H as [_ H].
Qed.

(** *** A substitution that writes a space *)

Lemma scan_spaced r aft : forall n bef,
  spaced r (drop n aft)
         (concat (map (render (fun _ => [sp])) (scan r n bef aft))).
Proof.
  induction aft as [|x aft IH]; intros n bef.
  - rewrite drop_nil. destruct n as [|n]; [|constructor].
    cbn [scan]. destruct (match_at r false bef []) as [h|]; [|constructor].
    destruct (length (whole h)); [|apply (spaced_space r O), spaced_nil].
    destruct (match_at r true bef []);
      repeat (apply (spaced_space r O)); apply spaced_nil.
  - destruct n as [|n]; [|apply IH].
    cbn [scan drop]. destruct (match_at r false bef (x :: aft)) as [h|] eqn:E.
    + destruct (length (whole h)) as [|m] eqn:Hlen.
      * cbn [drop map concat render app].
        destruct (match_at r true bef (x :: aft)) as [h'|].
        -- apply (spaced_space r O).
           apply (spaced_space r (S (Nat.pred (length (whole h'))))). apply IH.
        -- apply (spaced_empty r x aft _ bef h E Hlen). apply (IH O).
      * apply (spaced_space r (S m)). apply IH.
    + apply (spaced_keep r x aft _ bef E). apply (IH O).
Qed.

Lemma sub_spaced r t : spaced r t (sub_str r [sp] t).
Proof. apply (scan_spaced r t O []). Qed.

Lemma spaced_run r aft out :
  spaced r aft out ->
  (length (run (is_chr c) out) <= length (run (is_chr c) aft))%nat.
Proof.
  induction 1 as [|x aft out bef _ _ IH|k aft out _ _|x aft out bef h _ _ _ _].
  - done.
  - simpl. destruct (is_chr c x); simpl; lia.
  - rewrite run_chr_space by done. simpl. lia.
  - rewrite run_chr_space by done. simpl. lia.
Qed.

Lemma run_cons_le x a b :
  (length (run (is_chr c) a) <= length (run (is_chr c) b))%nat ->
  (length (run (is_chr c) (x :: a)) <= length (run (is_chr c) (x :: b)))%nat.
Proof. simpl. destruct (is_chr c x); simpl; lia. Qed.

(** No rule appears in the text written. *)
Lemma spaced_rule_free r aft out :
  spaced r aft out -> rule_free c aft = true -> rule_free c out = true.
Proof.
  assert (forall x a o, spaced r a o -> rule_free c (x :: a) = true ->
            (rule_free c a = true -> rule_free c o = true) ->
            rule_free c (x :: o) = true) as Hkeep.
  { intros x a o Hs Hf IH. rewrite rule_free_cons. apply andb_true_intro. split.
    - apply Nat.ltb_lt. pose proof (run_cons_le x _ _ (spaced_run r _ _ Hs)).
      apply rule_free_head in Hf. lia.
    - apply IH. by apply rule_free_tail in Hf. }
  induction 1 as [|x aft out bef Hm Hs IH|k aft out _ IH|x aft out bef h _ _ Hs IH];
    intros Hf.
  - done.
  - by apply (Hkeep x aft).
  - rewrite rule_free_cons, run_chr_space by done.
    apply IH. by apply rule_free_drop.
  - rewrite rule_free_cons, run_chr_space by done. by apply (Hkeep x aft).
Qed.

(** *** The rule pattern *)

Lemma match_rule_some bef aft :
  (5 <= length (run (is_chr c) aft))%nat ->
  match_at (re_rule c) false bef aft <> None.
Proof.
  intros H. unfold match_at, re_rule, Seq, Star, AtLeast.
  cbn [foldr rmatch before after caps].
  assert (run is_space aft = [] /\ after_run is_space aft = aft) as [Hr Ha].
  { destruct aft as [|x aft]; [done|]. simpl in *.
    destruct (is_chr c x) eqn:E; [|simpl in H; lia].
    apply Ascii.eqb_eq in E. subst x. by rewrite c_not_space. }
  erewrite rep_greedy_max; [done|rewrite Hr; simpl; lia|].
  rewrite Hr, Ha. cbn [rev app].
  erewrite rep_greedy_max; [reflexivity|done|].
  erewrite rep_greedy_max; [reflexivity|lia|]. cbn [rmatch drop_prefix].
  reflexivity.
Qed.

(** What a greedy quantifier hands to the rest of the pattern. *)
Lemma rep_sound {A} p (k : text -> text -> option A) x aft :
  forall lo bef,
    rep true p lo None bef aft k = Some x ->
    exists i, (lo <= i <= length aft)%nat
              /\ k (rev (take i aft) ++ bef) (drop i aft) = Some x.
Proof.
  induction aft as [|y aft IH]; intros lo bef H; cbn [rep orelse] in H.
  - destruct lo; [|done]. by exists O.
  - assert (match lo with O => k bef (y :: aft) | S _ => None end = Some x ->
            exists i, (lo <= i <= length (y :: aft))%nat
              /\ k (rev (take i (y :: aft)) ++ bef) (drop i (y :: aft)) = Some x)
      as Hstop.
    { destruct lo; [|done]. intros Hk. exists O. split; [simpl; lia|done]. }
    destruct (p y); cbn [andb hi_allows option_map] in H; [|by apply Hstop].
    destruct (rep true p (Nat.pred lo) None (y :: bef) aft k) eqn:E;
      [|by apply Hstop].
    cbn [orelse] in H. rewrite H in E.
    apply IH in E as (i & Hi & Hk). exists (S i). split; [simpl; lia|].
    cbn [take drop rev]. by rewrite <- app_assoc.
Qed.

(** A match of the rule pattern covers at least five characters. *)
Lemma match_rule_long bef aft h :
  match_at (re_rule c) false bef aft = Some h -> (5 <= length (whole h))%nat.
Proof.
  unfold match_at, re_rule, Seq, Star, AtLeast.
  cbn [foldr rmatch before after caps].
  destruct (rep _ _ _ _ _ _ _) as [st|] eqn:E; [|done]. intros [= <-].
  apply rep_sound in E as (i & Hi & E).
  apply rep_sound in E as (j & Hj & E).
  apply rep_sound in E as (k & Hk & E).
  cbn [rmatch drop_prefix andb] in E. injection E as <-.
  cbn [whole before]. rewrite length_take, !length_app, !length_rev, !length_take.
  rewrite !length_drop in *. lia.
Qed.

Lemma match_rule_none bef aft :
  rule_free c aft = true -> match_at (re_rule c) false bef aft = None.
Proof.
  intros H. unfold match_at, re_rule, Seq, Star, AtLeast.
  cbn [foldr rmatch before after caps].
  rewrite rep_greedy_none; [done|]. intros i _.
  rewrite rep_short; [done|].
  apply rule_free_head. by apply rule_free_drop.
Qed.

Lemma spaced_rule aft out : spaced (re_rule c) aft out -> rule_free c out = true.
Proof.
  induction 1 as [|x aft out bef Hm Hs IH|k aft out _ IH|x aft out bef h Hm Hlen _ _].
  - done.
  - rewrite rule_free_cons, IH, andb_true_r. apply Nat.ltb_lt.
    pose proof (run_cons_le x _ _ (spaced_run _ _ _ Hs)).
    destruct (decide (5 <= length (run (is_chr c) (x :: aft)))%nat) as [Hge|]; [|lia].
    by apply (match_rule_some bef) in Hge.
  - by rewrite rule_free_cons, run_chr_space.
  - apply match_rule_long in Hm. lia.
Qed.

(** A text without rules is left as it is. *)
Lemma scan_rule_free aft : forall bef,
  rule_free c aft = true ->
  scan (re_rule c) O bef aft = map Keep aft.
Proof.
  induction aft as [|x aft IH]; intros bef H.
  - cbn [scan]. by rewrite match_rule_none.
  - rewrite scan_keep by by apply match_rule_none.
    cbn [map]. f_equal. apply IH. by apply rule_free_tail in H.
Qed.

Lemma concat_keep repl s : concat (map (render repl) (map Keep s)) = s.
Proof. induction s as [|x s IH]; [done|]. simpl. by rewrite IH. Qed.

Lemma sub_rule_free t :
  rule_free c t = true -> sub_str (re_rule c) [sp] t = t.
Proof.
  intros H. unfold sub_str, sub. by rewrite scan_rule_free, concat_keep.
Qed.

End Idempotence.

Section Normalize.
Import Austin.

Lemma equals_not_space : is_space "="%char = false.
Proof. reflexivity. Qed.

Lemma dash_not_space : is_space "-"%char = false.
Proof. reflexivity. Qed.

(** The result of rules 5 and 6: squeezed, trimmed and without rules. *)
Lemma normalize_shape z :
  only_sp (normalize z) = true
  /\ no_ws_run (normalize z) = true
  /\ trimmed (normalize z) = true
  /\ rule_free "="%char (normalize z) = true
  /\ rule_free "-"%char (normalize z) = true.
Proof.
  unfold normalize.
  set (z1 := sub_str (re_rule "="%char) [sp] z).
  set (z2 := sub_str (re_rule "-"%char) [sp] z1).
  assert (rule_free "="%char z1 = true) as H1.
  { apply (spaced_rule _ equals_not_space z), sub_spaced. }
  assert (rule_free "="%char z2 = true) as H2.
  { apply (spaced_rule_free _ equals_not_space (re_rule "-"%char) z1);
      [apply sub_spaced|done]. }
  assert (rule_free "-"%char z2 = true) as H3.
  { apply (spaced_rule _ dash_not_space z1), sub_spaced. }
  split; [|split; [|split; [|split]]].
  - rewrite sub_spaces. apply strip_keeps; [apply only_sp_app|apply squeeze_only_sp].
  - rewrite sub_spaces. apply strip_keeps; [apply no_ws_run_app|apply squeeze_no_ws_run].
  - apply strip_trimmed.
  - apply strip_keeps; [apply rule_free_app|].
    apply (spaced_rule_free _ equals_not_space re_spaces z2); [apply sub_spaced|done].
  - apply strip_keeps; [apply rule_free_app|].
    apply (spaced_rule_free _ dash_not_space re_spaces z2); [apply sub_spaced|done].
Qed.

(** Rules 5 and 6 change nothing in a text of that shape. *)
Lemma normalize_fixed w :
  only_sp w = true -> no_ws_run w = true -> trimmed w = true ->
  rule_free "="%char w = true -> rule_free "-"%char w = true ->
  normalize w = w.
Proof.
  intros Hsp Hws Htr He Hd. unfold normalize.
  rewrite (sub_rule_free "="%char w) by done.
  rewrite (sub_rule_free "-"%char w) by done.
  rewrite sub_spaces. unfold squeeze. rewrite squeeze_id by done.
  by apply strip_id.
Qed.

Lemma normalize_idempotent z : normalize (normalize z) = normalize z.
Proof.
  destruct (normalize_shape z) as (H1 & H2 & H3 & H4 & H5).
  by apply normalize_fixed.
Qed.

End Normalize.

(** ** [clean_text]: statements *)

(** C1, as stated, fails: the rule for a role name at the start of the
    text removes one label, and cleaning the result removes the next. *)
Lemma clean_text_not_idempotent :
  Austin.clean_text example_two_labels = L "Doctor: hello"
  /\ Austin.clean_text (Austin.clean_text example_two_labels) = L "hello"
  /\ ~ (forall x, Austin.clean_text (Austin.clean_text x) = Austin.clean_text x).
Proof.
  split; [by vm_compute|]. split; [by vm_compute|].
  intros H. specialize (H example_two_labels). by vm_compute in H.
Qed.

(** C1, amended: the rules for section rules and whitespace (5 and 6)
    leave a cleaned text as it is, so cleaning a cleaned text changes
    nothing whenever the label and marker rules (1 to 4) find nothing
    left to remove in it. *)
Theorem clean_text_idempotent_without_labels (x : text) :
  Austin.normalize (Austin.clean_text x) = Austin.clean_text x
  /\ (Austin.strip_labels (Austin.clean_text x) = Austin.clean_text x ->
      Austin.clean_text (Austin.clean_text x) = Austin.clean_text x).
Proof.
  split; [apply normalize_idempotent|].
  intros H. unfold Austin.clean_text at 1. rewrite H. apply normalize_idempotent.
Qed.

Lemma clean_text_idempotent_without_labels_witness :
  Austin.clean_text (Austin.clean_text example_marker)
  = Austin.clean_text example_marker.
Proof.
  apply (clean_text_idempotent_without_labels example_marker).
  vm_compute. reflexivity.
Defined.

(** ** The extraction script: examples *)

(** C2, as stated, fails: a line opens an entry only when it begins with
    the number, so the line with the role label before the number gives no
    entry and nothing is written. *)
Lemma role_before_number_not_extracted :
  Austin.collect [example_role_line] = []
  /\ Austin.process_files [example_role_line] = []
  /\ ~ (exists t, (12, t) ∈ Austin.collect [example_role_line]).
Proof.
  split; [by vm_compute|]. split; [by vm_compute|].
  intros (t & H). assert (Austin.collect [example_role_line] = []) as E by by vm_compute.
  rewrite E in H. by apply elem_of_nil in H.
Qed.

(** C2, amended: with the number before the role label, the line gives the
    entry numbered 12, and its cleaned text is the line without number and
    label. *)
Theorem number_before_role_extracted :
  Austin.collect [example_numbered_role_line]
    = [(12, L "Narrator: Welcome to the show [apologetically]")]
  /\ Austin.clean_text (L "Narrator: Welcome to the show [apologetically]")
     = L "Welcome to the show [apologetically]"
  /\ Austin.process_files [example_numbered_role_line]
     = L "12  Welcome to the show [apologetically]".
Proof. split; [by vm_compute|]. split; by vm_compute. Qed.

(** C7: the dashed monologue block numbered 7 gives the entry
    [(7, "Hello there. I am fine.")]: the body is the two lines with their
    newlines, and its whitespace is collapsed to single spaces. *)
Theorem monologue_example :
  map (group 2) (finditer Austin.monologue_pattern1 example_monologue)
    = [L "Hello there." ++ [nl] ++ L "I am fine." ++ [nl]]
  /\ Austin.extract_monologues Austin.monologue_pattern1 example_monologue []
     = [(7, L "Hello there. I am fine.")]
  /\ Austin.collect [example_monologue] = [(7, L "Hello there. I am fine.")].
Proof. split; [by vm_compute|]. split; by vm_compute. Qed.

(** C8: the text is cut at the marker [You are A;] and trimmed. *)
Theorem marker_example :
  find (L "You are A;") example_marker = Some 8%nat
  /\ Austin.strip_labels example_marker = L "Go now. "
  /\ Austin.clean_text example_marker = L "Go now.".
Proof. split; [by vm_compute|]. split; by vm_compute. Qed.

(** ** Further properties of the extraction script *)

Section Written.
Import Austin.

Lemma omap_output_of l :
  omap output_of l
  = map (fun e : entry => format_line (fst e) (clean_text (snd e)))
        (List.filter (fun e : entry => nonempty (clean_text (snd e))) l).
Proof.
  induction l as [|e l IH]; [done|].
  cbn [omap list_omap List.filter]. unfold output_of at 1.
  destruct (nonempty (clean_text (snd e))); cbn [map]; by rewrite <- IH.
Qed.

Lemma map_line_number_format (l : list entry) :
  map line_number
      (map (fun e : entry => format_line (fst e) (clean_text (snd e))) l)
  = map fst l.
Proof.
  induction l as [|e l IH]; [done|]. cbn [map].
  by rewrite line_number_format, IH.
Qed.

Lemma sorted_lt_fst_NoDup (l : list entry) :
  StronglySorted (fun a b : entry => fst a < fst b) l -> NoDup (map fst l).
Proof.
  induction 1 as [|x l Hl IH Hx]; cbn [map]; constructor; [|done].
  intros (y & Hy & Hin)%list_elem_of_fmap.
  rewrite Forall_forall in Hx. specialize (Hx y Hin). lia.
Qed.

Lemma filter_number_nonempty n (l : list entry) :
  n ∈ map fst l -> filter (fun e : entry => fst e = n) l <> [].
Proof.
  intros (e & -> & Hin)%list_elem_of_fmap Hnil.
  assert (e ∈ filter (fun x : entry => fst x = fst e) l) as H
    by by apply list_elem_of_filter.
  rewrite Hnil in H. by apply elem_of_nil in H.
Qed.

End Written.

(** The written file read back: its lines are the unique entries whose
    cleaned text is not empty, in their order, each as number, two
    spaces and cleaned text; the numbers read from the lines are the
    numbers of those entries. *)
Theorem written_file_lines (contents : list text) :
  let kept := List.filter (fun e : Austin.entry =>
                             Austin.nonempty (Austin.clean_text (snd e)))
                          (Austin.unique_entries contents) in
  file_lines (Austin.process_files contents)
    = map (fun e : Austin.entry =>
             str_of (fst e) ++ [sp; sp] ++ Austin.clean_text (snd e)) kept
  /\ map line_number (file_lines (Austin.process_files contents)) = map fst kept.
Proof.
  cbn zeta. rewrite file_lines_output, output_lines_spec, omap_output_of.
  split; [done|]. apply map_line_number_format.
Qed.

(** Sorting and deduplication lose no line number and invent no entry:
    the unique entries are collected entries, every collected number is
    the number of a unique entry, and no number occurs twice. *)
Theorem dedup_keeps_every_number (contents : list text) :
  (forall e, e ∈ Austin.unique_entries contents -> e ∈ Austin.collect contents)
  /\ (forall n, n ∈ map fst (Austin.collect contents)
                <-> n ∈ map fst (Austin.unique_entries contents))
  /\ NoDup (map fst (Austin.unique_entries contents)).
Proof.
  assert (forall e, e ∈ Austin.unique_entries contents -> e ∈ Austin.collect contents)
    as Hsub.
  { intros e. unfold Austin.unique_entries. rewrite dedup_spec.
    intros [He _]%dedup_from_in. by rewrite sort_by_perm in He. }
  split; [done|]. split.
  - intros n. split.
    + intros Hn%filter_number_nonempty.
      assert (filter (fun e : Austin.entry => fst e = n)
                (Austin.unique_entries contents) <> []) as Hne.
      { unfold Austin.unique_entries.
        rewrite dedup_spec, dedup_from_filter, sort_by_stable.
        rewrite decide_False by set_solver.
        by destruct (filter _ (Austin.collect contents)). }
      destruct (filter _ (Austin.unique_entries contents)) as [|e l] eqn:E; [done|].
      assert (e ∈ filter (fun e : Austin.entry => fst e = n)
                (Austin.unique_entries contents)) as He
        by (rewrite E; apply list_elem_of_here).
      apply list_elem_of_filter in He as [<- He].
      apply list_elem_of_fmap. by exists e.
    + intros (e & -> & He)%list_elem_of_fmap.
      apply list_elem_of_fmap. exists e. split; [done|by apply Hsub].
  - apply sorted_lt_fst_NoDup, unique_entries_sorted.
Qed.

Lemma dedup_keeps_every_number_witness :
  (3, L "first") ∈ Austin.collect [example_duplicates]
  /\ (3 ∈ map fst (Austin.collect [example_duplicates])
      <-> 3 ∈ map fst (Austin.unique_entries [example_duplicates])).
Proof.
  destruct (dedup_keeps_every_number [example_duplicates]) as (H1 & H2 & _).
  split; [|apply H2].
  apply H1. vm_compute. apply list_elem_of_further, list_elem_of_here.
Defined.

(** ** Further properties of [clean_text] *)

Section Markers.
Import Austin.

Lemma startswith_nil_r p : p <> [] -> startswith p [] = false.
Proof. by destruct p. Qed.

Lemma startswith_take p k s :
  startswith p (take k s) = true -> startswith p s = true.
Proof.
  revert k s. induction p as [|x p IH]; intros k s; [done|].
  destruct k, s as [|y s]; try done. cbn [take startswith].
  intros [-> H]%andb_prop. cbn [andb]. by apply (IH k).
Qed.

Lemma startswith_app p s : startswith p (p ++ s) = true.
Proof.
  induction p as [|x p IH]; [done|]. cbn [app startswith].
  unfold chr_eqb. by rewrite Ascii.eqb_refl.
Qed.

(** [find] returns [None] exactly when there is no occurrence. *)
Lemma find_none_take p k s : find p s = None -> find p (take k s) = None.
Proof.
  revert k. induction s as [|x s IH]; intros k.
  - by rewrite take_nil.
  - cbn [find]. destruct (startswith p (x :: s)) eqn:E; [done|].
    destruct (find p s) eqn:F; [done|]. intros _.
    destruct k as [|k]; cbn [take].
    + cbn [find]. destruct (startswith p []) eqn:E'; [|done].
      destruct p; [done|done].
    + cbn [find]. destruct (startswith p (x :: take k s)) eqn:E'.
      * apply (startswith_take p (S k) (x :: s)) in E'. congruence.
      * by rewrite IH.
Qed.

Lemma find_first_take p i s :
  p <> [] -> find p s = Some i -> find p (take i s) = None.
Proof.
  intros Hp. revert i. induction s as [|x s IH]; intros i.
  - cbn [find]. by rewrite startswith_nil_r.
  - cbn [find]. destruct (startswith p (x :: s)) eqn:E.
    + intros [= <-]. cbn [take find]. by rewrite startswith_nil_r.
    + destruct (find p s) as [j|] eqn:F; [|done]. intros [= <-].
      cbn [take find]. destruct (startswith p (x :: take j s)) eqn:E'.
      * apply (startswith_take p (S j) (x :: s)) in E'. congruence.
      * by rewrite IH.
Qed.

Lemma find_none_occurrence p a b : find p (a ++ p ++ b) <> None.
Proof.
  induction a as [|x a IH]; cbn [app].
  - destruct (p ++ b) eqn:E; cbn [find].
    + by destruct p.
    + by rewrite <- E, startswith_app.
  - cbn [find]. destruct (startswith p (x :: a ++ p ++ b)); [done|].
    by destruct (find p (a ++ p ++ b)).
Qed.

Lemma truncate_at_take t m : exists k, truncate_at t m = take k t.
Proof.
  unfold truncate_at. destruct (find m t) as [i|]; [by exists i|].
  exists (length t). by rewrite firstn_all.
Qed.

Lemma truncate_at_none t m : m <> [] -> find m (truncate_at t m) = None.
Proof.
  intros Hm. unfold truncate_at. destruct (find m t) as [i|] eqn:E; [|done].
  by apply find_first_take.
Qed.

Lemma fold_truncate_take ms : forall t, exists k, fold_left truncate_at ms t = take k t.
Proof.
  induction ms as [|m ms IH]; intros t.
  - exists (length t). by rewrite firstn_all.
  - cbn [fold_left]. destruct (IH (truncate_at t m)) as [k ->].
    destruct (truncate_at_take t m) as [j ->].
    exists (k `min` j)%nat. by rewrite take_take.
Qed.

Lemma fold_truncate_none ms m : forall t,
  m ∈ ms -> m <> [] -> find m (fold_left truncate_at ms t) = None.
Proof.
  induction ms as [|m' ms IH]; intros t Hin Hm; [by apply elem_of_nil in Hin|].
  cbn [fold_left]. apply elem_of_cons in Hin as [->|Hin]; [|by apply IH].
  destruct (fold_truncate_take ms (truncate_at t m')) as [k ->].
  by apply find_none_take, truncate_at_none.
Qed.

End Markers.

(** After the label and marker rules (1 to 4) none of the markers occurs
    in the text. *)
Theorem strip_labels_no_marker (t m : text) :
  m ∈ Austin.markers ->
  find m (Austin.strip_labels t) = None
  /\ forall a b, Austin.strip_labels t <> a ++ m ++ b.
Proof.
  intros Hm.
  assert (find m (Austin.strip_labels t) = None) as H.
  { unfold Austin.strip_labels. apply fold_truncate_none; [done|].
    intros ->. revert Hm. unfold Austin.markers. rewrite !elem_of_cons, elem_of_nil.
    intros [H|[H|[H|[H|[H|[H|[]]]]]]]; discriminate H. }
  split; [done|]. intros a b E. rewrite E in H. by apply find_none_occurrence in H.
Qed.

Lemma strip_labels_no_marker_witness :
  find (L "You are A;") (Austin.strip_labels example_marker) = None.
Proof.
  apply (strip_labels_no_marker example_marker (L "You are A;")).
  unfold Austin.markers. do 3 apply list_elem_of_further. apply list_elem_of_here.
Defined.

Section Rules.
Import Austin.

Lemma run_replicate_le c n b :
  (n <= length (run (is_chr c) (replicate n c ++ b)))%nat.
Proof.
  induction n as [|n IH]; cbn [replicate app]; [lia|].
  cbn [run]. unfold is_chr at 1, chr_eqb. rewrite Ascii.eqb_refl.
  cbn [length]. lia.
Qed.

Lemma rule_free_occurrence c a b :
  rule_free c (a ++ replicate 5 c ++ b) = false.
Proof.
  destruct (rule_free c (a ++ replicate 5 c ++ b)) eqn:E; [|done].
  apply rule_free_app in E as [_ E]. apply rule_free_head in E.
  pose proof (run_replicate_le c 5 b). lia.
Qed.

End Rules.

(** A cleaned text contains no run of five or more [=] and no run of five
    or more [-]. *)
Theorem clean_text_no_rule (t a b : text) :
  Austin.clean_text t <> a ++ replicate 5 "="%char ++ b
  /\ Austin.clean_text t <> a ++ replicate 5 "-"%char ++ b.
Proof.
  destruct (normalize_shape (Austin.strip_labels t)) as (_ & _ & _ & He & Hd).
  fold (Austin.clean_text t) in He, Hd.
  split; intros E; rewrite E in *; by rewrite rule_free_occurrence in *.
Qed.

Section Blank.
Import Austin.

(** A scan over a text in which the pattern matches nowhere keeps every
    character. *)
Lemma scan_no_match r aft : forall bef,
  (forall bef' k, match_at r false bef' (drop k aft) = None) ->
  scan r O bef aft = map Keep aft.
Proof.
  induction aft as [|x aft IH]; intros bef H.
  - pose proof (H bef O) as H0. cbn [drop] in H0. cbn [scan]. by rewrite H0.
  - rewrite scan_keep by apply (H bef O). cbn [map]. f_equal.
    apply IH. intros bef' k. apply (H bef' (S k)).
Qed.

Lemma sub_no_match r repl s :
  (forall bef k, match_at r false bef (drop k s) = None) -> sub r repl s = s.
Proof. intros H. unfold sub. by rewrite scan_no_match, concat_keep. Qed.

Lemma forallb_drop (p : ascii -> bool) k s :
  forallb p s = true -> forallb p (drop k s) = true.
Proof.
  intros H. rewrite <- (take_drop k s), forallb_app in H.
  by apply andb_prop in H as [_ H].
Qed.

Lemma space_not_upper c : is_space c = true -> is_upper c = false.
Proof. destruct c as [[] [] [] [] [] [] [] []]; vm_compute; congruence. Qed.

Lemma space_not_chr c x : is_space c = false -> is_space x = true -> chr_eqb c x = false.
Proof.
  intros Hc Hx. unfold chr_eqb. destruct (Ascii.eqb c x) eqn:E; [|done].
  apply Ascii.eqb_eq in E. congruence.
Qed.

Lemma match_character_blank bef s :
  forallb is_space s = true -> match_at re_character false bef s = None.
Proof.
  intros H. unfold match_at, re_character, Seq.
  cbn [foldr rmatch before after caps L list_ascii_of_string].
  destruct s as [|x s]; [done|]. cbn [forallb] in H. apply andb_prop in H as [Hx _].
  cbn [drop_prefix]. by rewrite (space_not_chr "C"%char x).
Qed.

Lemma match_role_code_blank bef s :
  forallb is_space s = true -> match_at re_role_code false bef s = None.
Proof.
  intros H. unfold match_at, re_role_code, Seq.
  cbn [foldr rmatch before after caps].
  destruct s as [|x s]; [done|]. cbn [forallb] in H. apply andb_prop in H as [Hx _].
  by rewrite space_not_upper.
Qed.

Lemma match_role_prefix_blank bef s :
  forallb is_space s = true -> match_at re_role_prefix false bef s = None.
Proof.
  intros H. unfold match_at, re_role_prefix, Seq.
  cbn [foldr rmatch before after caps].
  destruct (at_bol false bef); [|done].
  destruct s as [|x s]; [done|]. cbn [forallb] in H. apply andb_prop in H as [Hx _].
  by rewrite space_not_upper.
Qed.

Lemma find_blank c m s :
  is_space c = false -> forallb is_space s = true -> find (c :: m) s = None.
Proof.
  intros Hc. induction s as [|x s IH]; [done|].
  cbn [forallb find startswith]. intros [Hx Hs]%andb_prop.
  by rewrite (space_not_chr c x), IH.
Qed.

Lemma truncate_at_blank s c m :
  is_space c = false -> forallb is_space s = true -> truncate_at s (c :: m) = s.
Proof. intros Hc Hs. unfold truncate_at. by rewrite find_blank. Qed.

Lemma truncate_blank s :
  forallb is_space s = true -> fold_left truncate_at markers s = s.
Proof.
  intros H. unfold markers. cbn [fold_left L list_ascii_of_string].
  by rewrite !(truncate_at_blank s) by done.
Qed.

Lemma strip_labels_blank s :
  forallb is_space s = true -> strip_labels s = s.
Proof.
  intros H. unfold strip_labels, sub_str.
  rewrite (sub_no_match re_character)
    by (intros; by apply match_character_blank, forallb_drop).
  rewrite (sub_no_match re_role_code)
    by (intros; by apply match_role_code_blank, forallb_drop).
  rewrite (sub_no_match re_role_prefix)
    by (intros; by apply match_role_prefix_blank, forallb_drop).
  by apply truncate_blank.
Qed.

Lemma rule_free_blank c s :
  is_space c = false -> forallb is_space s = true -> rule_free c s = true.
Proof.
  intros Hc. induction s as [|x s IH]; [done|].
  cbn [forallb]. intros [Hx Hs]%andb_prop.
  by rewrite rule_free_cons, (run_chr_space c Hc), IH.
Qed.

Lemma squeeze_blank b s :
  forallb is_space s = true -> forallb is_space (squeeze_go b s) = true.
Proof.
  revert b. induction s as [|x s IH]; intros b; [done|].
  cbn [forallb squeeze_go]. intros [-> Hs]%andb_prop.
  destruct b; cbn [forallb]; by rewrite IH.
Qed.

Lemma strip_blank s : forallb is_space s = true -> strip s = [].
Proof.
  intros H. unfold strip. rewrite lstrip_after_run.
  assert (after_run is_space s = []) as ->; [|done].
  induction s as [|x s IH]; [done|]. cbn [forallb] in H.
  apply andb_prop in H as [Hx Hs]. cbn [after_run]. rewrite Hx. by apply IH.
Qed.

End Blank.

(** A text of whitespace only, the empty text included, cleans to the
    empty text, so that no line is written for such an entry. *)
Theorem clean_text_blank (t : text) :
  forallb is_space t = true ->
  Austin.clean_text t = []
  /\ forall output_lines num, Austin.output_step output_lines (num, t) = output_lines.
Proof.
  intros H.
  assert (Austin.clean_text t = []) as E.
  { unfold Austin.clean_text, Austin.normalize. rewrite strip_labels_blank by done.
    rewrite (sub_rule_free "="%char t) by by apply rule_free_blank.
    rewrite (sub_rule_free "-"%char t) by by apply rule_free_blank.
    rewrite sub_spaces. by apply strip_blank, squeeze_blank. }
  split; [done|]. intros ol num. unfold Austin.output_step. by rewrite E.
Qed.

Lemma clean_text_blank_witness : Austin.clean_text [sp; nl; sp] = [].
Proof. apply (clean_text_blank [sp; nl; sp]). reflexivity. Defined.

(** ** Line endings *)

Section LineEndings.
Import Austin.

Lemma chr_eqb_refl c : chr_eqb c c = true.
Proof. apply Ascii.eqb_refl. Qed.

Lemma chr_eqb_ne c x : c <> x -> chr_eqb c x = false.
Proof.
  intros H. unfold chr_eqb. destruct (Ascii.eqb c x) eqn:E; [|done].
  by apply Ascii.eqb_eq in E.
Qed.

Lemma chr_eqb_true c x : chr_eqb c x = true -> c = x.
Proof. apply Ascii.eqb_eq. Qed.

(** Nothing is replaced in a text without the first character of [old]. *)
Lemma replace_absent c p new s : c ∉ s -> replace (c :: p) new s = s.
Proof.
  unfold replace. induction s as [|x s IH]; [done|].
  intros [Hx Hs]%not_elem_of_cons. cbn [replace_go startswith].
  rewrite chr_eqb_ne by done. cbn [andb]. by rewrite IH.
Qed.

(** Nor in a text without the second character of [old]. *)
Lemma replace_absent_second c d new s : d ∉ s -> replace [c; d] new s = s.
Proof.
  unfold replace. induction s as [|x s IH]; [done|].
  intros [Hx Hs]%not_elem_of_cons. cbn [replace_go startswith].
  rewrite IH by done. destruct (chr_eqb c x); [|done]. cbn [andb].
  destruct s as [|y s]; [done|].
  apply not_elem_of_cons in Hs as [Hy _]. by rewrite chr_eqb_ne.
Qed.

Lemma replace_chr_free c d s : c <> d -> c ∉ replace [c] [d] s.
Proof.
  intros Hcd. unfold replace. induction s as [|x s IH]; [apply not_elem_of_nil|].
  cbn [replace_go startswith length Nat.pred].
  destruct (chr_eqb c x) eqn:E; cbn [andb app]; apply not_elem_of_cons.
  - done.
  - split; [|done]. intros ->. by rewrite chr_eqb_refl in E.
Qed.

Lemma replace_chr_back c d s : c ∉ s -> replace [c] [d] (replace [d] [c] s) = s.
Proof.
  unfold replace. induction s as [|x s IH]; [done|].
  intros [Hx Hs]%not_elem_of_cons.
  cbn [replace_go startswith length Nat.pred].
  destruct (chr_eqb d x) eqn:E; cbn [andb app replace_go startswith length Nat.pred].
  - apply chr_eqb_true in E as ->. rewrite chr_eqb_refl. cbn [andb app].
    by rewrite IH.
  - rewrite chr_eqb_ne by done. cbn [andb]. by rewrite IH.
Qed.

Lemma replace_chr_keeps c d e s : e <> d -> e ∉ s -> e ∉ replace [c] [d] s.
Proof.
  intros Hed. unfold replace. induction s as [|x s IH]; [done|].
  intros [Hx Hs]%not_elem_of_cons.
  cbn [replace_go startswith length Nat.pred].
  destruct (chr_eqb c x); cbn [andb app]; apply not_elem_of_cons; auto.
Qed.

Lemma replace_pair_back c d s :
  c <> d -> c ∉ s -> replace [c; d] [d] (replace [d] [c; d] s) = s.
Proof.
  intros Hcd. unfold replace. induction s as [|x s IH]; [done|].
  intros [Hx Hs]%not_elem_of_cons.
  cbn [replace_go startswith length Nat.pred].
  destruct (chr_eqb d x) eqn:E; cbn [andb app replace_go startswith length Nat.pred].
  - apply chr_eqb_true in E as ->. rewrite !chr_eqb_refl. cbn [andb app].
    by rewrite IH.
  - rewrite chr_eqb_ne by done. cbn [andb]. by rewrite IH.
Qed.

(** The normalization at the head of the loop body. *)
Lemma unify_newlines_fixed s :
  cr ∉ s -> replace [cr] [nl] (replace [cr; nl] [nl] s) = s.
Proof.
  intros H. rewrite (replace_absent cr [nl] [nl] s) by done.
  by apply replace_absent.
Qed.

Lemma unify_newlines_cr_free s : cr ∉ replace [cr] [nl] (replace [cr; nl] [nl] s).
Proof. by apply replace_chr_free. Qed.

Lemma process_content_unified acc (s1 s2 : text) :
  replace [cr] [nl] (replace [cr; nl] [nl] s1)
  = replace [cr] [nl] (replace [cr; nl] [nl] s2) ->
  process_content acc s1 = process_content acc s2.
Proof. intros H. unfold process_content. by rewrite H. Qed.

End LineEndings.

(** The line endings of a file do not matter: the content with Unix
    line endings, with each newline replaced by carriage return and
    newline, or replaced by a carriage return alone, gives the same
    entries; so does the content already normalized. *)
Theorem line_endings_do_not_matter (all_entries : list Austin.entry) (content : text) :
  Austin.process_content all_entries
      (replace [cr] [nl] (replace [cr; nl] [nl] content))
    = Austin.process_content all_entries content
  /\ (cr ∉ content ->
      Austin.process_content all_entries (replace [nl] [cr; nl] content)
        = Austin.process_content all_entries content
      /\ Austin.process_content all_entries (replace [nl] [cr] content)
         = Austin.process_content all_entries content).
Proof.
  split; [|intros Hcr; split]; apply process_content_unified.
  - apply unify_newlines_fixed, unify_newlines_cr_free.
  - rewrite replace_pair_back, unify_newlines_fixed by done.
    by apply replace_absent.
  - rewrite (replace_absent_second cr nl).
    + by rewrite replace_chr_back, unify_newlines_fixed.
    + by apply replace_chr_free.
Qed.

Lemma line_endings_do_not_matter_witness :
  Austin.process_content [] (L "3 first" ++ [cr; nl] ++ L "4 second")
  = Austin.process_content [] (L "3 first" ++ [nl] ++ L "4 second").
Proof.
  destruct (line_endings_do_not_matter [] (L "3 first" ++ [nl] ++ L "4 second"))
    as [_ H].
  apply H. vm_compute. intros H1.
  repeat (apply elem_of_cons in H1 as [H1|H1]; [discriminate H1|]).
  by apply elem_of_nil in H1.
Defined.

(** ** Further properties of the renumbering script *)

Section Lines.
Import Chris.

Lemma count_nl_last l : last l = Some nl -> (1 <= count_chr nl l)%nat.
Proof.
  induction l as [|x l IH]; [done|].
  destruct l as [|y l].
  - intros [= ->]. simpl. lia.
  - intros H. specialize (IH H). cbn [count_chr] in *.
    destruct (chr_eqb nl x); lia.
Qed.

Lemma complete_line_cons x l :
  chr_eqb nl x = false -> complete_line l -> complete_line (x :: l).
Proof.
  intros Hx [Hc Hl]. split.
  - cbn [count_chr]. by rewrite Hx.
  - destruct l; [done|]. done.
Qed.

Lemma partial_line_cons x l :
  chr_eqb nl x = false -> l = [] \/ partial_line l -> partial_line (x :: l).
Proof.
  intros Hx H. split; [|done]. cbn [count_chr]. rewrite Hx.
  by destruct H as [->|[-> _]].
Qed.

Lemma keepends_lines_ok s : lines_ok (keepends s).
Proof.
  induction s as [|x s IH]; [done|]. cbn [keepends].
  destruct (chr_eqb nl x) eqn:E.
  - apply Ascii.eqb_eq in E as <-.
    assert (complete_line [nl]) as H by done.
    destruct (keepends s); [by left|done].
  - destruct (keepends s) as [|l ls].
    + right. by apply partial_line_cons; [|left].
    + destruct ls as [|l' ls].
      * destruct IH as [H|H]; [left; by apply complete_line_cons|].
        right. by apply partial_line_cons; [|right].
      * destruct IH as [H IH]. split; [by apply complete_line_cons|done].
Qed.

Lemma keepends_complete l s : complete_line l -> keepends (l ++ s) = l :: keepends s.
Proof.
  induction l as [|x l IH]; intros [Hc Hl]; [done|].
  cbn [app keepends count_chr] in *. destruct (chr_eqb nl x) eqn:E.
  - destruct l as [|y l]; [done|].
    assert (last (y :: l) = Some nl) as H by done.
    apply count_nl_last in H. lia.
  - rewrite IH; [done|]. split; [done|].
    destruct l as [|y l]; [|done]. injection Hl as ->. by rewrite chr_eqb_refl in E.
Qed.

Lemma keepends_partial l : partial_line l -> keepends l = [l].
Proof.
  induction l as [|x l IH]; intros [Hc Hl]; [done|].
  cbn [keepends count_chr] in *. destruct (chr_eqb nl x) eqn:E; [done|].
  destruct l as [|y l]; [done|]. by rewrite IH.
Qed.

Lemma keepends_of_lines ls : lines_ok ls -> keepends (concat ls) = ls.
Proof.
  induction ls as [|l ls IH]; [done|].
  destruct ls as [|l' ls].
  - intros [H|H]; cbn [concat]; rewrite app_nil_r.
    + rewrite <- (app_nil_r l) at 1. by rewrite keepends_complete.
    + by apply keepends_partial.
  - intros [H Hls]. cbn [concat] in *. rewrite keepends_complete by done.
    by rewrite IH.
Qed.

Lemma last_renumber_line offset l : last (renumber_line offset l) = last l.
Proof.
  destruct (numbered_line l) eqn:Hnum.
  - apply numbered_line_split in Hnum as (ds & c & r & -> & Hne & Hds & Hc).
    rewrite renumber_line_numbered by done.
    by rewrite !last_app_cons.
  - by rewrite renumber_line_other.
Qed.

Lemma renumber_line_nonempty offset l : l <> [] -> renumber_line offset l <> [].
Proof.
  intros Hl E. apply (f_equal last) in E. rewrite last_renumber_line in E.
  by destruct l using rev_ind; [|rewrite last_snoc in E].
Qed.

Lemma renumber_lines_ok offset ls :
  lines_ok ls -> lines_ok (map (renumber_line offset) ls).
Proof.
  assert (forall l, complete_line l -> complete_line (renumber_line offset l)) as Hc.
  { intros l [H1 H2]. split; [by rewrite count_nl_renumber_line|].
    by rewrite last_renumber_line. }
  assert (forall l, partial_line l -> partial_line (renumber_line offset l)) as Hp.
  { intros l [H1 H2]. split; [by rewrite count_nl_renumber_line|].
    by apply renumber_line_nonempty. }
  induction ls as [|l ls IH]; [done|].
  destruct ls as [|l' ls].
  - intros [H|H]; [left; by apply Hc|right; by apply Hp].
  - intros [H Hls]. split; [by apply Hc|by apply IH].
Qed.

Lemma keepends_renumbered offset s :
  keepends (concat (map (renumber_line offset) (keepends s)))
  = map (renumber_line offset) (keepends s).
Proof. apply keepends_of_lines, renumber_lines_ok, keepends_lines_ok. Qed.

Lemma renumber_line_again k1 k2 l :
  renumber_line k2 (renumber_line k1 l) = renumber_line (k1 + k2) l.
Proof.
  destruct (numbered_line l) eqn:Hnum.
  - apply numbered_line_split in Hnum as (ds & c & r & -> & Hne & Hds & Hc).
    rewrite !(renumber_line_numbered _ ds) by done.
    rewrite renumber_line_numbered;
      [|apply str_of_nonempty|apply str_of_digits|done].
    rewrite int_of_str_of. do 2 f_equal. lia.
  - rewrite (renumber_line_other k1 l) by done.
    by rewrite !renumber_line_other.
Qed.

End Lines.

(** Renumbering keeps the lines of a content apart, and the script is not
    idempotent: run a second time on a file it adds the offset again, so
    that every numbered line is 1224 above its first number. *)
Theorem renumbering_twice (content : text) :
  keepends (Chris.add_offset_to_numbers content)
    = map (renumber_line Chris.OFFSET) (keepends content)
  /\ Chris.add_offset_to_numbers (Chris.add_offset_to_numbers content)
     = concat (map (renumber_line 1224) (keepends content)).
Proof.
  rewrite !add_offset_linewise, keepends_renumbered. split; [done|].
  rewrite map_map. f_equal. apply map_ext. intros l.
  apply (renumber_line_again Chris.OFFSET Chris.OFFSET).
Qed.



(** ** Collection *)

Section Collection.
Import Austin.

(** What a greedy quantifier hands on, with the characters it took. *)
Lemma rep_sound_class {A} p (k : text -> text -> option A) x aft :
  forall lo bef,
    rep true p lo None bef aft k = Some x ->
    exists i, (lo <= i <= length aft)%nat
              /\ forallb p (take i aft) = true
              /\ k (rev (take i aft) ++ bef) (drop i aft) = Some x.
Proof.
  induction aft as [|y aft IH]; intros lo bef H; cbn [rep orelse] in H.
  - destruct lo; [|done]. by exists O.
  - assert (match lo with O => k bef (y :: aft) | S _ => None end = Some x ->
            exists i, (lo <= i <= length (y :: aft))%nat
              /\ forallb p (take i (y :: aft)) = true
              /\ k (rev (take i (y :: aft)) ++ bef) (drop i (y :: aft)) = Some x)
      as Hstop.
    { destruct lo; [|done]. intros Hk. exists O. split; [simpl; lia|done]. }
    destruct (p y) eqn:Hy; cbn [andb hi_allows option_map] in H; [|by apply Hstop].
    destruct (rep true p (Nat.pred lo) None (y :: bef) aft k) eqn:E;
      [|by apply Hstop].
    cbn [orelse] in H. rewrite H in E.
    apply IH in E as (i & Hi & Hp & Hk). exists (S i). split; [simpl; lia|].
    cbn [take drop rev forallb]. rewrite Hy, Hp. split; [done|].
    by rewrite <- app_assoc.
Qed.

(** A line that opens an entry begins with digits and a whitespace
    character, and the digits are group 1. *)
Lemma match_numbered line m :
  re_match re_numbered line = Some m ->
  numbered_line line = true /\ group 1 m = run is_digit line.
Proof.
  unfold re_match, match_at, re_numbered, Seq, Plus, Star.
  cbn [foldr rmatch before after caps at_bol].
  destruct (rep _ _ _ _ _ _ _) as [st|] eqn:E; [|done]. intros [= <-].
  apply rep_sound_class in E as (i & Hi & Hds & E).
  cbn [before after caps] in E.
  apply rep_sound_class in E as (j & Hj & Hsp & E).
  cbn [before after caps] in E.
  apply rep_sound in E as (k & Hk & E).
  cbn [rmatch before after caps drop_prefix] in E.
  destruct (at_eol false _); [|done]. cbn [andb] in E. injection E as <-.
  destruct (drop i line) as [|c r] eqn:Ed; [simpl in Hj; lia|].
  destruct j as [|j]; [lia|]. cbn [take forallb] in Hsp.
  apply andb_prop in Hsp as [Hc _].
  assert (line = take i line ++ c :: r) as Hline by by rewrite <- Ed, take_drop.
  assert (take i line <> []) as Hne.
  { intros E'. apply (f_equal length) in E'. rewrite length_take in E'.
    simpl in E'. lia. }
  split.
  - rewrite Hline. by apply numbered_line_intro.
  - unfold group. cbn [groups caps assoc Nat.eqb default].
    rewrite app_nil_r, length_rev, length_take.
    replace (i `min` length line - 0)%nat with i by lia.
    rewrite Hline at 2.
    by destruct (run_digits_then (take i line) c r Hds (space_not_digit c Hc)) as [-> _].
Qed.

Lemma extract_monologues_app pat content (all_entries : list entry) :
  extract_monologues pat content all_entries
  = all_entries
    ++ map (fun m => (int_of (group 1 m), collapse (group 2 m)))
           (finditer pat content).
Proof.
  unfold extract_monologues. revert all_entries.
  induction (finditer pat content) as [|m ms IH]; intros acc.
  - by rewrite app_nil_r.
  - cbn [fold_left map]. rewrite IH. by rewrite <- app_assoc.
Qed.

(** The entries of the numbered-line pass. *)
Lemma numbered_lines_app lines :
  forall skip (all_entries : list entry),
  exists added,
    numbered_lines skip lines all_entries = all_entries ++ added
    /\ Forall (fun e : entry =>
                 strip (snd e) <> []
                 /\ exists line, line ∈ lines /\ numbered_line line = true
                                 /\ fst e = line_number line) added.
Proof.
  induction lines as [|line rest IH]; intros skip acc.
  - exists []. by rewrite app_nil_r.
  - assert (forall added,
              Forall (fun e : entry =>
                 strip (snd e) <> []
                 /\ exists l, l ∈ rest /\ numbered_line l = true
                              /\ fst e = line_number l) added ->
              Forall (fun e : entry =>
                 strip (snd e) <> []
                 /\ exists l, l ∈ line :: rest /\ numbered_line l = true
                              /\ fst e = line_number l) added) as Hweak.
    { intros added H. eapply Forall_impl; [exact H|].
      intros e (H1 & l & Hl & H2). split; [done|].
      exists l. split; [by right|done]. }
    cbn [numbered_lines]. destruct skip as [|n].
    + destruct (re_match re_numbered line) as [m|] eqn:Em.
      * destruct (gather rest [group 2 m]) as [parts n].
        destruct (nonempty (strip (join [sp] parts))) eqn:Ene.
        -- destruct (IH n (acc ++ [(int_of (group 1 m), join [sp] parts)]))
             as (added & -> & Hadded).
           exists ((int_of (group 1 m), join [sp] parts) :: added).
           split; [by rewrite <- app_assoc|]. constructor; [|by apply Hweak].
           cbn [fst snd]. split; [by destruct (strip _)|].
           apply match_numbered in Em as [Hnum Hg].
           exists line. split; [by left|]. split; [done|].
           unfold line_number. by rewrite Hg.
        -- destruct (IH n acc) as (added & -> & Hadded).
           exists added. split; [done|by apply Hweak].
      * destruct (IH O acc) as (added & -> & Hadded).
        exists added. split; [done|by apply Hweak].
    + destruct (IH n acc) as (added & -> & Hadded).
      exists added. split; [done|by apply Hweak].
Qed.

Lemma process_content_app (all_entries : list entry) content :
  exists added, process_content all_entries content = all_entries ++ added.
Proof.
  unfold process_content.
  set (c := replace [cr] [nl] (replace [cr; nl] [nl] content)).
  rewrite !extract_monologues_app. unfold extract_fallback.
  match goal with
  | |- context [fold_left fallback_step ?ms ?acc] =>
      destruct (fallback_fold ms acc) as (a3 & E3 & _); rewrite E3
  end.
  match goal with
  | |- context [numbered_lines ?k ?ls ?acc] =>
      destruct (numbered_lines_app ls k acc) as (a4 & E4 & _); rewrite E4
  end.
  eexists. by rewrite <- !app_assoc.
Qed.

Lemma collect_from_app cs : forall acc : list entry,
  exists added, fold_left process_content cs acc = acc ++ added.
Proof.
  induction cs as [|c cs IH]; intros acc.
  - exists []. by rewrite app_nil_r.
  - cbn [fold_left]. destruct (process_content_app acc c) as (a1 & ->).
    destruct (IH (acc ++ a1)) as (a2 & ->).
    exists (a1 ++ a2). by rewrite app_assoc.
Qed.

End Collection.

(** The loop over the lines only appends entries; each entry it appends
    has the number that one of the lines begins with, before a whitespace
    character, and a text that is not blank. *)
Theorem numbered_lines_entries (lines : list text) (all_entries : list Austin.entry) :
  exists added,
    Austin.numbered_lines O lines all_entries = all_entries ++ added
    /\ Forall (fun e : Austin.entry =>
                 strip (snd e) <> []
                 /\ exists line, line ∈ lines /\ numbered_line line = true
                                 /\ fst e = line_number line) added.
Proof. apply numbered_lines_app. Qed.

(** The collection only grows: the entries of the files read so far stay
    where they are, in their order, at the front of the collection when
    further files are read. *)
Theorem collect_prefix (contents more : list text) :
  exists added,
    Austin.collect (contents ++ more) = Austin.collect contents ++ added.
Proof.
  unfold Austin.collect. rewrite fold_left_app. apply collect_from_app.
Qed.

(** ** Whitespace collapsing *)

Section Collapse.
Import Austin.

Lemma split_ws_go_words s : forall cur,
  forallb (fun c => negb (is_space c)) cur = true ->
  Forall word_ok (split_ws_go cur s).
Proof.
  induction s as [|c s IH]; intros cur Hcur; cbn [split_ws_go].
  - destruct cur as [|x cur]; [constructor|]. constructor; [|constructor].
    split; [|by rewrite forallb_rev].
    intros E. apply (f_equal (@length _)) in E. rewrite length_rev in E. done.
  - destruct (is_space c) eqn:Hc.
    + destruct cur as [|x cur]; [by apply IH|].
      constructor; [|by apply IH]. split; [|by rewrite forallb_rev].
      intros E. apply (f_equal (@length _)) in E. rewrite length_rev in E. done.
    + apply IH. cbn [forallb]. by rewrite Hc.
Qed.

Lemma join_cons sep (p : text) ps :
  join sep (p :: ps) = match ps with [] => p | _ => p ++ sep ++ join sep ps end.
Proof. done. Qed.

Lemma join_words_nil ws :
  Forall word_ok ws -> join [sp] ws = [] -> ws = [].
Proof.
  destruct 1 as [|w ws [Hw _] _]; [done|]. rewrite join_cons.
  destruct ws; [done|]. by destruct w.
Qed.

Lemma join_words_head ws :
  Forall word_ok ws ->
  match join [sp] ws with c :: _ => is_space c = false | [] => True end.
Proof.
  destruct 1 as [|w ws [Hw Hns] _]; [done|]. rewrite join_cons.
  destruct w as [|x w]; [done|]. cbn [forallb] in Hns.
  apply andb_prop in Hns as [Hx%negb_true_iff _]. by destruct ws.
Qed.

Lemma join_words_last ws :
  Forall word_ok ws ->
  match rev (join [sp] ws) with c :: _ => is_space c = false | [] => True end.
Proof.
  induction 1 as [|w ws [Hw Hns] Hws IH]; [done|]. rewrite join_cons.
  assert (match rev w with c :: _ => is_space c = false | [] => True end) as Hlast.
  { rewrite <- forallb_rev in Hns. destruct (rev w) as [|x r]; [done|].
    cbn [forallb] in Hns. by apply andb_prop in Hns as [Hx%negb_true_iff _]. }
  destruct ws as [|w' ws]; [done|].
  rewrite !rev_app_distr.
  destruct (rev (join [sp] (w' :: ws))) as [|x r] eqn:E; [|done].
  apply (f_equal (@rev _)) in E. rewrite rev_involutive in E. cbn [rev] in E.
  by apply join_words_nil in E.
Qed.

(** Squeezing a text gives its words joined by single spaces, with
    whitespace after them. *)
Lemma squeeze_go_words s :
  (forall cur, cur <> [] ->
     exists post,
       forallb is_space post = true
       /\ rev cur ++ squeeze_go false s = join [sp] (split_ws_go cur s) ++ post)
  /\ (exists post,
        forallb is_space post = true
        /\ squeeze_go true s = join [sp] (split_ws_go [] s) ++ post).
Proof.
  induction s as [|c s [IH1 IH2]].
  - split; [|by exists []]. intros cur Hcur. exists [].
    split; [done|]. cbn [split_ws_go squeeze_go]. by destruct cur.
  - cbn [split_ws_go squeeze_go]. destruct (is_space c) eqn:Hc.
    + split; [|done]. intros cur Hcur.
      destruct IH2 as (post & Hpost & ->).
      destruct cur as [|x cur]; [done|]. rewrite join_cons.
      destruct (split_ws_go [] s) as [|w ws].
      * exists (sp :: post). by split.
      * exists post. split; [done|]. by rewrite <- !app_assoc.
    + assert (forall cur, exists post,
                forallb is_space post = true
                /\ rev cur ++ c :: squeeze_go false s
                    = join [sp] (split_ws_go (c :: cur) s) ++ post) as H.
      { intros cur. destruct (IH1 (c :: cur)) as (post & Hpost & E); [done|].
        exists post. split; [done|]. rewrite <- E. cbn [rev].
        by rewrite <- app_assoc. }
      split; [intros cur _; apply H|apply (H [])].
Qed.

Lemma squeeze_words s :
  exists pre post,
    forallb is_space pre = true /\ forallb is_space post = true
    /\ squeeze s = pre ++ join [sp] (split_ws s) ++ post.
Proof.
  unfold squeeze, split_ws. destruct s as [|c s]; [by exists [], []|].
  cbn [squeeze_go split_ws_go]. destruct (is_space c) eqn:Hc.
  - destruct (squeeze_go_words s) as [_ (post & Hpost & ->)].
    by exists [sp], post.
  - destruct (squeeze_go_words s) as [H _].
    destruct (H [c]) as (post & Hpost & E); [done|].
    exists [], post. split; [done|]. split; [done|]. by rewrite <- E.
Qed.

(** [strip] finds the trimmed text between whitespace. *)
Lemma strip_between a t b :
  forallb is_space a = true -> forallb is_space b = true -> trimmed t = true ->
  strip (a ++ t ++ b) = t.
Proof.
  intros Ha Hb [Hh Hl]%andb_prop. unfold strip.
  rewrite lstrip_after_run, after_run_app_all by done.
  destruct t as [|x t].
  - cbn [app]. rewrite <- (app_nil_r b), after_run_app_all by done.
    done.
  - apply negb_true_iff in Hh.
    assert (after_run is_space ((x :: t) ++ b) = (x :: t) ++ b) as ->.
    { cbn [app after_run]. by rewrite Hh. }
    unfold rstrip. rewrite rev_app_distr, lstrip_after_run.
    rewrite after_run_app_all by by rewrite forallb_rev.
    destruct (rev (x :: t)) as [|y r] eqn:E.
    { apply (f_equal (@length _)) in E. by rewrite length_rev in E. }
    apply negb_true_iff in Hl. cbn [after_run]. rewrite Hl, <- E.
    apply rev_involutive.
Qed.

Lemma join_words_trimmed ws : Forall word_ok ws -> trimmed (join [sp] ws) = true.
Proof.
  intros H. unfold trimmed.
  pose proof (join_words_head ws H) as Hh. pose proof (join_words_last ws H) as Hl.
  destruct (join [sp] ws); [done|]. rewrite Hh. cbn [negb andb].
  destruct (rev _); [done|]. by rewrite Hl.
Qed.

(** Whitespace at the ends does not change the words. *)
Lemma split_ws_go_blank b : forall cur,
  forallb is_space b = true -> split_ws_go cur b = split_ws_go cur [].
Proof.
  induction b as [|c b IH]; intros cur; [done|].
  cbn [forallb split_ws_go]. intros [-> Hb]%andb_prop.
  destruct cur; by rewrite IH.
Qed.

Lemma split_ws_go_app_blank t b : forall cur,
  forallb is_space b = true -> split_ws_go cur (t ++ b) = split_ws_go cur t.
Proof.
  induction t as [|c t IH]; intros cur Hb.
  - by apply split_ws_go_blank.
  - cbn [app split_ws_go]. by rewrite !IH.
Qed.

Lemma split_ws_blank_app a t :
  forallb is_space a = true -> split_ws (a ++ t) = split_ws t.
Proof.
  unfold split_ws. induction a as [|c a IH]; [done|].
  cbn [forallb app split_ws_go]. intros [-> Ha]%andb_prop. by apply IH.
Qed.

Lemma split_ws_strip s : split_ws (strip s) = split_ws s.
Proof.
  destruct (strip_split s) as (a & b & E & Ha & Hb).
  rewrite E at 2. rewrite split_ws_blank_app by done.
  unfold split_ws. by rewrite split_ws_go_app_blank.
Qed.

Lemma collapse_squeeze body : collapse body = strip (squeeze body).
Proof.
  unfold collapse. rewrite split_ws_strip.
  destruct (squeeze_words body) as (pre & post & Hpre & Hpost & ->).
  rewrite strip_between; [done|done|done|].
  apply join_words_trimmed, split_ws_go_words. done.
Qed.

End Collapse.

(** The whitespace collapsing of the monologue bodies,
    [' '.join(body.strip().split())], is the same function as rule 6 of
    [clean_text], [re.sub(r'\s+', ' ', text).strip()]; collapsing a
    collapsed text changes nothing, and a collapsed text has no newline. *)
Theorem collapse_is_rule_6 (body : text) :
  Austin.collapse body = strip (sub_str Austin.re_spaces [sp] body)
  /\ Austin.collapse (Austin.collapse body) = Austin.collapse body
  /\ (nl ∉ Austin.collapse body).
Proof.
  rewrite sub_spaces, !collapse_squeeze.
  assert (only_sp (strip (squeeze body)) = true) as Ho
    by (apply strip_keeps; [apply only_sp_app|apply squeeze_only_sp]).
  assert (no_ws_run (strip (squeeze body)) = true) as Hn
    by (apply strip_keeps; [apply no_ws_run_app|apply squeeze_no_ws_run]).
  split; [done|]. split; [|by apply only_sp_no_nl].
  unfold squeeze at 1. rewrite squeeze_id by done.
  apply strip_id, strip_trimmed.
Qed.

(** ** Which files are renumbered *)

Section Selection.
Import Chris.

Lemma drop_prefix_sound p s r : drop_prefix p s = Some r -> s = p ++ r.
Proof.
  revert s. induction p as [|x p IH]; intros s; cbn [drop_prefix].
  - by intros [= ->].
  - destruct s as [|y s]; [done|]. destruct (chr_eqb x y) eqn:E; [|done].
    apply Ascii.eqb_eq in E as ->. intros H%IH. by rewrite H.
Qed.

(** Every match reported by a scan is a match of the pattern at some
    position of the subject. *)
Lemma scan_sound r h aft : forall n bef,
  Found h ∈ scan r n bef aft ->
  exists adv bef' aft',
    match_at r adv bef' aft' = Some h /\ rev bef' ++ aft' = rev bef ++ aft.
Proof.
  induction aft as [|x aft IH]; intros n bef.
  - destruct n as [|n]; cbn [scan]; [|by intros ?%elem_of_nil].
    destruct (match_at r false bef []) as [h0|] eqn:E; [|by intros ?%elem_of_nil].
    assert (Found h ∈ [Found h0] -> exists adv bef' aft',
              match_at r adv bef' aft' = Some h /\ rev bef' ++ aft' = rev bef ++ [])
      as H0.
    { intros [= ->]%list_elem_of_singleton. by exists false, bef, []. }
    destruct (length (whole h0)); [|done].
    destruct (match_at r true bef []) as [h1|] eqn:E1; [|done].
    intros [[= ->]|[[= ->]|[]%elem_of_nil]%elem_of_cons]%elem_of_cons.
    + by exists false, bef, [].
    + by exists true, bef, [].
  - assert (forall k, Found h ∈ scan r k (x :: bef) aft ->
              exists adv bef' aft',
                match_at r adv bef' aft' = Some h
                /\ rev bef' ++ aft' = rev bef ++ x :: aft) as Hnext.
    { intros k (adv & bef' & aft' & Hm & E)%IH.
      exists adv, bef', aft'. split; [done|].
      rewrite E. cbn [rev]. by rewrite <- app_assoc. }
    destruct n as [|n]; cbn [scan]; [|apply Hnext].
    destruct (match_at r false bef (x :: aft)) as [h0|] eqn:E.
    + destruct (length (whole h0)).
      * destruct (match_at r true bef (x :: aft)) as [h1|] eqn:E1.
        -- intros [[= ->]|[[= ->]|H]%elem_of_cons]%elem_of_cons.
           ++ by exists false, bef, (x :: aft).
           ++ by exists true, bef, (x :: aft).
           ++ by apply Hnext in H.
        -- intros [[= ->]|[[=]|H]%elem_of_cons]%elem_of_cons.
           ++ by exists false, bef, (x :: aft).
           ++ by apply Hnext in H.
      * intros [[= ->]|H]%elem_of_cons.
        -- by exists false, bef, (x :: aft).
        -- by apply Hnext in H.
    + intros [[=]|H]%elem_of_cons. by apply Hnext in H.
Qed.

Lemma search_sound r s h :
  search r s = Some h ->
  exists adv bef aft, match_at r adv bef aft = Some h /\ rev bef ++ aft = s.
Proof.
  unfold search, finditer, hits. intros H.
  assert (h ∈ omap (fun t => match t with Found h => Some h | Keep _ => None end)
                   (scan r O [] s)) as Hin.
  { destruct (omap _ _) as [|h0 l]; [done|]. injection H as ->. by left. }
  apply list_elem_of_omap in Hin as (t & Ht & E).
  destruct t as [c|h0]; [done|]. injection E as ->.
  by apply scan_sound in Ht.
Qed.

(** A match of the file-name pattern. *)
Lemma match_file_number_sound adv bef aft h :
  match_at re_file_number adv bef aft = Some h ->
  exists ds rest,
    aft = L "actor_assignments" ++ ds ++ L ".txt" ++ rest
    /\ ds <> [] /\ forallb is_digit ds = true /\ group 1 h = ds.
Proof.
  unfold match_at, re_file_number, Seq, Plus.
  cbn [foldr rmatch before after caps].
  destruct (drop_prefix (L "actor_assignments") aft) as [r1|] eqn:E1; [|done].
  apply drop_prefix_sound in E1 as ->.
  destruct (rep _ _ _ _ _ _ _) as [st|] eqn:E; [|done]. intros [= <-].
  apply rep_sound_class in E as (i & Hi & Hds & E).
  cbn [rmatch before after caps] in E.
  destruct (drop_prefix (L ".txt") (drop i r1)) as [r2|] eqn:E2; [|done].
  apply drop_prefix_sound in E2.
  cbn [drop_prefix rmatch before after caps] in E.
  destruct (adv && _); [done|]. injection E as <-.
  exists (take i r1), r2. split; [|split; [|split; [done|]]].
  - by rewrite <- E2, take_drop.
  - intros E'. apply (f_equal (@length _)) in E'. rewrite length_take in E'.
    simpl in E'. lia.
  - unfold group. cbn [groups caps assoc Nat.eqb default].
    rewrite !length_app, !length_rev, length_take.
    cbn [length]. by replace (_ - _)%nat with i by lia.
Qed.

End Selection.

(** [main] rewrites a file only if its path contains
    [actor_assignments<digits>.txt] with a number that is at least
    [START_FILE]; any other file is left as it is. *)
Theorem selected_sound (path : text) :
  (Chris.selected path = true ->
   exists a ds b,
     path = a ++ L "actor_assignments" ++ ds ++ L ".txt" ++ b
     /\ ds <> [] /\ forallb is_digit ds = true /\ 8 <= int_of ds)
  /\ (forall content,
        Chris.selected path = false ->
        Chris.main_step (path, content) = (path, content)).
Proof.
  split.
  - unfold Chris.selected.
    destruct (search Chris.re_file_number path) as [h|] eqn:E; [|done].
    intros Hle%N.leb_le.
    apply search_sound in E as (adv & bef & aft & Hm & <-).
    apply match_file_number_sound in Hm as (ds & rest & -> & Hne & Hds & Hg).
    exists (rev bef), ds, rest. rewrite Hg in Hle. done.
  - intros content H. unfold Chris.main_step. by rewrite H.
Qed.

Lemma selected_sound_witness :
  exists a ds b,
    example_path = a ++ L "actor_assignments" ++ ds ++ L ".txt" ++ b
    /\ ds <> [] /\ forallb is_digit ds = true /\ 8 <= int_of ds.
Proof.
  apply (proj1 (selected_sound example_path)). vm_compute. reflexivity.
Defined.

(** ** No newline in a collected text *)

Section NoNewline.
Import Austin.

Lemma collapse_no_nl body : nl ∉ collapse body.
Proof.
  rewrite collapse_squeeze. apply only_sp_no_nl.
  apply strip_keeps; [apply only_sp_app|apply squeeze_only_sp].
Qed.

Lemma rev_free (c : ascii) (l : text) : c ∉ l -> c ∉ rev l.
Proof.
  rewrite !list_elem_of_In. intros H Hin. apply H.
  by rewrite <- in_rev in Hin.
Qed.

Lemma split_chr_go_free c s : forall cur,
  c ∉ cur -> Forall (fun l => c ∉ l) (split_chr_go c cur s).
Proof.
  induction s as [|x s IH]; intros cur Hcur; cbn [split_chr_go].
  - constructor; [|constructor]. by apply rev_free.
  - destruct (chr_eqb c x) eqn:E.
    + constructor; [by apply rev_free|]. apply IH, not_elem_of_nil.
    + apply IH. apply not_elem_of_cons. split; [|done].
      intros ->. by rewrite chr_eqb_refl in E.
Qed.

Lemma strip_free c l : c ∉ l -> c ∉ strip l.
Proof.
  intros H Hin. apply H.
  destruct (strip_split l) as (a & b & E & _). rewrite E.
  apply elem_of_app. right. apply elem_of_app. by left.
Qed.

Lemma join_sp_no_nl parts :
  Forall (fun l => nl ∉ l) parts -> nl ∉ join [sp] parts.
Proof.
  induction 1 as [|p ps Hp Hps IH]; [apply not_elem_of_nil|].
  rewrite join_cons. destruct ps as [|q ps]; [done|].
  rewrite !not_elem_of_app. split; [done|]. split; [|done].
  apply not_elem_of_cons. split; [done|apply not_elem_of_nil].
Qed.

Lemma gather_no_nl lines : forall parts,
  Forall (fun l => nl ∉ l) lines -> Forall (fun l => nl ∉ l) parts ->
  Forall (fun l => nl ∉ l) (fst (gather lines parts)).
Proof.
  induction lines as [|line rest IH]; intros parts Hlines Hparts; [done|].
  apply Forall_cons in Hlines as [Hline Hrest]. cbn [gather].
  destruct (text_eqb (strip line) BREAK); [done|].
  destruct (negb (nonempty (strip line))); [done|].
  destruct (is_stop_line line (strip line)); [done|].
  specialize (IH (parts ++ [strip line]) Hrest).
  destruct (gather rest (parts ++ [strip line])) as [ps n]. cbn [fst] in *.
  apply IH. apply Forall_app. split; [done|].
  constructor; [by apply strip_free|constructor].
Qed.

(** The text of a line that opens an entry is a part of the line. *)
Lemma match_numbered_text line m :
  re_match re_numbered line = Some m ->
  exists p q, group 2 m = take p (drop q line).
Proof.
  unfold re_match, match_at, re_numbered, Seq, Plus, Star.
  cbn [foldr rmatch before after caps at_bol].
  destruct (rep _ _ _ _ _ _ _) as [st|] eqn:E; [|done]. intros [= <-].
  apply rep_sound in E as (i & Hi & E). cbn [before after caps] in E.
  apply rep_sound in E as (j & Hj & E). cbn [before after caps] in E.
  apply rep_sound in E as (k & Hk & E).
  cbn [rmatch before after caps drop_prefix] in E.
  destruct (at_eol false _); [|done]. cbn [andb] in E. injection E as <-.
  unfold group. cbn [groups caps assoc Nat.eqb default].
  eexists _, (i + j)%nat. by rewrite drop_drop.
Qed.

Lemma take_drop_free (c : ascii) p q (l : text) : c ∉ l -> c ∉ take p (drop q l).
Proof.
  intros H Hin. apply H.
  rewrite <- (take_drop q l). apply elem_of_app. right.
  rewrite <- (take_drop p (drop q l)). apply elem_of_app. by left.
Qed.

Lemma numbered_lines_no_nl lines : forall skip (all_entries : list entry),
  Forall (fun l => nl ∉ l) lines ->
  Forall (fun e : entry => nl ∉ snd e) all_entries ->
  Forall (fun e : entry => nl ∉ snd e) (numbered_lines skip lines all_entries).
Proof.
  induction lines as [|line rest IH]; intros skip acc Hlines Hacc; [done|].
  apply Forall_cons in Hlines as [Hline Hrest]. cbn [numbered_lines].
  destruct skip as [|n]; [|by apply IH].
  destruct (re_match re_numbered line) as [m|] eqn:Em; [|by apply IH].
  pose proof (gather_no_nl rest [group 2 m] Hrest) as Hg.
  destruct (gather rest [group 2 m]) as [parts n]. cbn [fst] in Hg.
  apply IH; [done|].
  destruct (nonempty (strip (join [sp] parts))); [|done].
  apply Forall_app. split; [done|]. constructor; [|constructor].
  cbn [snd]. apply join_sp_no_nl, Hg.
  constructor; [|constructor].
  apply match_numbered_text in Em as (p & q & ->). by apply take_drop_free.
Qed.

Lemma fallback_no_nl ms : forall acc : list entry,
  Forall (fun e : entry => nl ∉ snd e) acc ->
  Forall (fun e : entry => nl ∉ snd e) (fold_left fallback_step ms acc).
Proof.
  induction ms as [|m ms IH]; intros acc Hacc; [done|].
  cbn [fold_left]. apply IH. unfold fallback_step.
  destruct (number_in _ acc); [done|].
  apply Forall_app. split; [done|].
  constructor; [apply collapse_no_nl|constructor].
Qed.

Lemma monologues_no_nl pat content (acc : list entry) :
  Forall (fun e : entry => nl ∉ snd e) acc ->
  Forall (fun e : entry => nl ∉ snd e) (extract_monologues pat content acc).
Proof.
  intros Hacc. rewrite extract_monologues_app. apply Forall_app. split; [done|].
  apply Forall_forall. intros e (m & -> & _)%list_elem_of_fmap.
  apply collapse_no_nl.
Qed.

Lemma process_content_no_nl (acc : list entry) content :
  Forall (fun e : entry => nl ∉ snd e) acc ->
  Forall (fun e : entry => nl ∉ snd e) (process_content acc content).
Proof.
  intros Hacc. unfold process_content.
  apply numbered_lines_no_nl.
  - apply split_chr_go_free, not_elem_of_nil.
  - by apply fallback_no_nl, monologues_no_nl, monologues_no_nl.
Qed.

Lemma collect_from_no_nl cs : forall acc : list entry,
  Forall (fun e : entry => nl ∉ snd e) acc ->
  Forall (fun e : entry => nl ∉ snd e) (fold_left process_content cs acc).
Proof.
  induction cs as [|c cs IH]; intros acc Hacc; [done|].
  cbn [fold_left]. by apply IH, process_content_no_nl.
Qed.

End NoNewline.

(** No collected entry has a newline in its text, whichever pass it comes
    from: the monologue bodies are collapsed, and the numbered lines and
    their continuations are joined by spaces. *)
Theorem collected_text_no_newline (contents : list text) (e : Austin.entry) :
  e ∈ Austin.collect contents -> nl ∉ snd e.
Proof.
  intros He.
  assert (Forall (fun e : Austin.entry => nl ∉ snd e) (Austin.collect contents)) as H
    by (apply collect_from_no_nl; constructor).
  rewrite Forall_forall in H. by apply H.
Qed.

Lemma collected_text_no_newline_witness : nl ∉ L "Hello there. I am fine.".
Proof.
  apply (collected_text_no_newline [example_monologue]
           (7, L "Hello there. I am fine.")).
  vm_compute. apply list_elem_of_here.
Defined.
